(** * WebTools service worker (sw.js): offline caching policy

    A shallow embedding of [sw.js] and proofs about its three event
    listeners ([install], [activate], [fetch]) and the [cacheFirst] helper.

    The browser objects the worker talks to are modelled as follows.
    - [CacheStorage] ([caches]) is a finite map from store names to stores;
      a store ([Cache]) is a finite map from request URLs to responses.
    - An [async] function is a computation of type [Promise A]: it reads the
      hosting environment, threads the world (cache storage and a log of
      the calls made to the browser) and either resolves with a value or
      rejects with an error.  [await] and [.then] are monadic bind,
      [try]/[catch] is [try_catch], [throw] is [throw].
    - The operations that may reject are the ones the worker guards
      against: [fetch], [cache.put], [cache.addAll] and [caches.delete];
      whether they do is decided by the environment [Env].  Opening a
      store, looking a request up and listing the store names are total. *)

From stdpp Require Import gmap strings list fin_maps.
From Stdlib Require Import ZArith Ascii String.

Local Open Scope Z_scope.
Local Open Scope string_scope.
Local Open Scope list_scope.

(** ** JavaScript strings *)

Module JsString.

(** [s.startsWith(p)] *)
Definition startsWith (s p : string) : bool := String.prefix p s.

(** [s.endsWith(p)] *)
Definition endsWith (s p : string) : bool :=
  let n := String.length s in
  let m := String.length p in
  if (m <=? n)%nat then String.eqb (String.substring (n - m) m s) p else false.

End JsString.

(** ** Regular expressions of the shape used by [RUNTIME_CDN_PATTERNS]

    Every pattern is [/^lit\/?/i]: anchored at the start, a literal, an
    optional slash, case-insensitive, not anchored at the end. *)

Module Re.

Inductive item : Type :=
| Lit (c : ascii)
| Opt (c : ascii).

Definition regex : Type := list item.

Definition is_upper (c : ascii) : bool :=
  let n := nat_of_ascii c in ((65 <=? n) && (n <=? 90))%nat.

Definition to_lower (c : ascii) : ascii :=
  if is_upper c then ascii_of_nat (nat_of_ascii c + 32) else c.

(** The [i] flag: characters are compared up to ASCII case. *)
Definition ci_eqb (c d : ascii) : bool := Ascii.eqb (to_lower c) (to_lower d).

Fixpoint lits (s : string) : regex :=
  match s with
  | EmptyString => []
  | String c s' => Lit c :: lits s'
  end.

(** Match [re] at the start of [s]. *)
Fixpoint match_here (re : regex) (s : string) : bool :=
  match re with
  | [] => true
  | Lit c :: re' =>
      match s with
      | String d s' => ci_eqb c d && match_here re' s'
      | EmptyString => false
      end
  | Opt c :: re' =>
      match s with
      | String d s' => (ci_eqb c d && match_here re' s') || match_here re' s
      | EmptyString => match_here re' s
      end
  end.

(** [re.test(s)] for an anchored pattern. *)
Definition test (re : regex) (s : string) : bool := match_here re s.

End Re.

(** ** Requests, responses and parsed URLs *)

Record Request : Type := mkRequest {
  method : string;
  url : string;
  mode : string
}.

Record Response : Type := mkResponse {
  status : Z;
  type : string;
  headers : list (string * string);
  body : string
}.

(** [response.clone()] *)
Definition clone (r : Response) : Response := r.

Record URL : Type := mkURL {
  origin : string;
  pathname : string
}.

(** ** The world: cache storage and the log of browser calls *)

Inductive Event : Type :=
| EvOpen (name : string)
| EvMatch (name key : string)
| EvPut (name key : string) (r : Response)
| EvFetch (req : Request)
| EvKeys
| EvDelete (name : string)
| EvSkipWaiting
| EvClaim.

Record World : Type := mkWorld {
  caches : gmap string (gmap string Response);
  trace : list Event   (* most recent call first *)
}.

Definition log (e : Event) (w : World) : World :=
  {| caches := caches w; trace := e :: trace w |}.

Definition set_caches (c : gmap string (gmap string Response)) (w : World) : World :=
  {| caches := c; trace := trace w |}.

(** The entry stored for [key] in the store called [name], if any. *)
Definition entry (w : World) (name key : string) : option Response :=
  caches w !! name ≫= λ store, store !! key.

(** ** The environment: what the network and the storage backend answer *)

Record Env : Type := mkEnv {
  net : Request → option Response;          (* [None]: the fetch rejects *)
  put_ok : string → string → Response → bool; (* does this write succeed? *)
  delete_ok : string → bool                  (* does this deletion succeed? *)
}.

(** ** Promises *)

Inductive Error : Type := NetworkError | WriteError | DeleteError.

Inductive Result (A : Type) : Type :=
| Resolved (a : A)
| Rejected (e : Error).
Arguments Resolved {A} a.
Arguments Rejected {A} e.

Definition Promise (A : Type) : Type := Env → World → Result A * World.

#[export] Instance Promise_ret : MRet Promise :=
  λ A a, (λ _ w, (Resolved a, w)).

#[export] Instance Promise_bind : MBind Promise :=
  λ A B f p, (λ env w,
    match p env w with
    | (Resolved a, w') => f a env w'
    | (Rejected e, w') => (Rejected e, w')
    end).

Definition throw {A} (e : Error) : Promise A := λ _ w, (Rejected e, w).

(** [try { p } catch (err) { h err }] *)
Definition try_catch {A} (p : Promise A) (h : Error → Promise A) : Promise A :=
  λ env w,
    match p env w with
    | (Resolved a, w') => (Resolved a, w')
    | (Rejected e, w') => h e env w'
    end.

(** [Promise.all] over promises that have all been started already: every
    one of them runs; the result rejects with the first rejection. *)
Fixpoint Promise_all {A} (ps : list (Promise A)) : Promise (list A) :=
  match ps with
  | [] => mret []
  | p :: ps' =>
      λ env w,
        match p env w with
        | (Resolved a, w1) =>
            match Promise_all ps' env w1 with
            | (Resolved l, w2) => (Resolved (a :: l), w2)
            | (Rejected e, w2) => (Rejected e, w2)
            end
        | (Rejected e, w1) => (Rejected e, snd (Promise_all ps' env w1))
        end
  end.

(** ** The hosting environment fixed at start-up *)

Record Host : Type := mkHost {
  SCOPE_PATH : string;        (* [new URL(registration.scope, location).pathname] *)
  location_origin : string;   (* [self.location.origin] *)
  new_URL : string → URL      (* the browser's URL parser *)
}.

(** ** Browser primitives *)

Section Primitives.

Context (host : Host).

(** A URL given as a string is resolved against the worker's location; the
    strings the worker passes are absolute paths. *)
Definition resolve (path : string) : string := location_origin host +:+ path.

(** The request the browser builds from a URL string. *)
Definition Request_of (path : string) : Request :=
  {| method := "GET"; url := resolve path; mode := "cors" |}.

(** [response.ok] *)
Definition ok (r : Response) : bool :=
  ((200 <=? status r) && (status r <=? 299))%Z.

(** [fetch(request)] *)
Definition fetch (request : Request) : Promise Response :=
  λ env w,
    match net env request with
    | Some r => (Resolved r, log (EvFetch request) w)
    | None => (Rejected NetworkError, log (EvFetch request) w)
    end.

(** [caches.open(name)]: creates the store when it does not exist; the
    handle of a store is its name. *)
Definition caches_open (name : string) : Promise string :=
  λ _ w,
    let w' := log (EvOpen name) w in
    match caches w !! name with
    | Some _ => (Resolved name, w')
    | None => (Resolved name, set_caches (<[name := ∅]> (caches w)) w')
    end.

(** [cache.match(key)] *)
Definition cache_match (cache key : string) : Promise (option Response) :=
  λ _ w, (Resolved (entry w cache key), log (EvMatch cache key) w).

Definition store_put (cache key : string) (r : Response)
    (c : gmap string (gmap string Response)) : gmap string (gmap string Response) :=
  <[cache := <[key := r]> (default ∅ (c !! cache))]> c.

(** [cache.put(key, response)] *)
Definition cache_put (cache key : string) (r : Response) : Promise unit :=
  λ env w,
    let w' := log (EvPut cache key r) w in
    if put_ok env cache key r
    then (Resolved (), set_caches (store_put cache key r (caches w)) w')
    else (Rejected WriteError, w').

(** The responses [cache.addAll] collects: every request must be answered,
    with an [ok] status. *)
Fixpoint fetch_all (env : Env) (urls : list string) : option (list (string * Response)) :=
  match urls with
  | [] => Some []
  | u :: urls' =>
      match net env (Request_of u) with
      | Some r =>
          if ok r
          then match fetch_all env urls' with
               | Some l => Some ((resolve u, r) :: l)
               | None => None
               end
          else None
      | None => None
      end
  end.

(** [cache.addAll(urls)]: all requests are fetched; the responses are
    stored as one batch, or not at all. *)
Definition cache_addAll (cache : string) (urls : list string) : Promise unit :=
  λ env w,
    let w1 := foldl (λ w u, log (EvFetch (Request_of u)) w) w urls in
    match fetch_all env urls with
    | None => (Rejected NetworkError, w1)
    | Some entries =>
        if forallb (λ e, put_ok env cache e.1 e.2) entries
        then (Resolved (),
              foldl (λ w e, set_caches (store_put cache e.1 e.2 (caches w))
                                       (log (EvPut cache e.1 e.2) w)) w1 entries)
        else (Rejected WriteError, w1)
    end.

(** [caches.keys()] *)
Definition caches_keys : Promise (list string) :=
  λ _ w, (Resolved (elements (dom (caches w))), log EvKeys w).

(** [caches.delete(name)]: resolves to whether the store existed. *)
Definition caches_delete (name : string) : Promise bool :=
  λ env w,
    let w' := log (EvDelete name) w in
    if delete_ok env name
    then (Resolved (bool_decide (is_Some (caches w !! name))),
          set_caches (delete name (caches w)) w')
    else (Rejected DeleteError, w').

(** [self.skipWaiting()] *)
Definition skipWaiting : Promise unit := λ _ w, (Resolved (), log EvSkipWaiting w).

(** [self.clients.claim()] *)
Definition clients_claim : Promise unit := λ _ w, (Resolved (), log EvClaim w).

End Primitives.

(** ** sw.js *)

Definition VERSION : string := "v1.0.2".
Definition CACHE_NAME : string := "webtools-cache-" +:+ VERSION.

Definition PRECACHE_FILES : list string :=
  [ EmptyString; "index.html"; "manifest.webmanifest"; "gif.worker.js" ].

Definition RUNTIME_CDN_PATTERNS : list Re.regex :=
  [ Re.lits "https://cdn.tailwindcss.com" ++ [Re.Opt "/"%char];
    Re.lits "https://fonts.googleapis.com" ++ [Re.Opt "/"%char];
    Re.lits "https://fonts.gstatic.com" ++ [Re.Opt "/"%char];
    Re.lits "https://img.icons8.com" ++ [Re.Opt "/"%char];
    Re.lits "https://cdn.jsdelivr.net" ++ [Re.Opt "/"%char];
    Re.lits "https://cdnjs.cloudflare.com" ++ [Re.Opt "/"%char] ].

(** What the [fetch] listener does with an event: it either returns without
    calling [event.respondWith], or hands a promise to it. *)
Inductive Outcome : Type :=
| PassThrough
| Responded (r : Result Response).

Section Worker.

Context (host : Host).

Definition BASE : string :=
  if JsString.endsWith (SCOPE_PATH host) "/" then SCOPE_PATH host
  else SCOPE_PATH host +:+ "/".

Definition PRECACHE_URLS : list string := map (λ p, BASE +:+ p) PRECACHE_FILES.

Definition cacheFirst (request : Request) (cacheName : string) : Promise Response :=
  cache ← caches_open cacheName;
  cached ← cache_match cache (url request);
  match cached with
  | Some c => mret c
  | None =>
      try_catch
        (response ← fetch request;
         _ ← (if (status response =? 200)%Z || String.eqb (type response) "opaque"
              then try_catch (cache_put cache (url request) (clone response))
                             (λ _, mret ())
              else mret ());
         mret response)
        (λ err,
           match cached with
           | Some c => mret c
           | None => throw err
           end)
  end.

(** The promise the [install] listener hands to [event.waitUntil]. *)
Definition install : Promise unit :=
  cache ← caches_open CACHE_NAME;
  _ ← cache_addAll host cache PRECACHE_URLS;
  skipWaiting.

(** The promise the [activate] listener hands to [event.waitUntil]. *)
Definition activate : Promise unit :=
  keys ← caches_keys;
  let deletions :=
    map (λ key, caches_delete key)
        (List.filter (λ key, JsString.startsWith key "webtools-cache-"
                             && negb (String.eqb key CACHE_NAME)) keys) in
  _ ← Promise_all deletions;
  clients_claim.

Definition offline_page : Response :=
  {| status := 200;
     type := "default";
     headers := [("Content-Type", "text/html; charset=utf-8")];
     body := "<h1>离线模式</h1><p>当前无法连接网络，且尚未缓存应用壳。</p>" |}.

(** The navigation branch of the [fetch] listener. *)
Definition navigate (req : Request) : Promise Response :=
  try_catch
    (fresh ← fetch req;
     cache ← caches_open CACHE_NAME;
     _ ← try_catch (cache_put cache (resolve host (BASE +:+ "index.html")) (clone fresh))
                   (λ _, mret ());
     mret fresh)
    (λ _,
       cache ← caches_open CACHE_NAME;
       cached ← cache_match cache (resolve host (BASE +:+ "index.html"));
       match cached with
       | Some c => mret c
       | None => mret offline_page
       end).

(** The [fetch] listener: [None] when it returns without calling
    [event.respondWith]. *)
Definition on_fetch (req : Request) : option (Promise Response) :=
  if negb (String.eqb (method req) "GET") then None
  else
    let url_ := new_URL host (url req) in
    if String.eqb (mode req) "navigate" then Some (navigate req)
    else if String.eqb (origin url_) (location_origin host)
            && JsString.startsWith (pathname url_) BASE
    then Some (cacheFirst req CACHE_NAME)
    else if existsb (λ re, Re.test re (url req)) RUNTIME_CDN_PATTERNS
    then Some (cacheFirst req CACHE_NAME)
    else None.

(** Dispatching one [fetch] event to the worker. *)
Definition handle_fetch (req : Request) (env : Env) (w : World) : Outcome * World :=
  match on_fetch req with
  | None => (PassThrough, w)
  | Some p => let '(r, w') := p env w in (Responded r, w')
  end.

End Worker.

(** ** Observations on a world *)

(** The network fetches made so far, most recent first. *)
Definition network_calls (w : World) : list Request :=
  omap (λ e, match e with EvFetch r => Some r | _ => None end) (trace w).

(** The cache writes attempted so far, most recent first. *)
Definition cache_writes (w : World) : list (string * string * Response) :=
  omap (λ e, match e with EvPut n k r => Some (n, k, r) | _ => None end) (trace w).

(** [caches.keys()] restricted to the application's naming pattern. *)
Definition app_stores (w : World) : list string :=
  List.filter (λ key, JsString.startsWith key "webtools-cache-")
              (elements (dom (caches w))).

(** The guard of [cacheFirst] on what gets cached. *)
Definition cacheable (r : Response) : bool :=
  (status r =? 200)%Z || String.eqb (type r) "opaque".

(** ** Definitions used in the statements *)

(** The world once [cacheFirst] has opened and queried the store. *)
Definition looked_up (env : Env) (w : World) (request : Request) (cacheName : string)
    : World :=
  log (EvMatch cacheName (url request)) (snd (caches_open cacheName env w)).

(** The fixed key of the application shell in the current store. *)
Definition shell_key (host : Host) : string := resolve host (BASE host +:+ "index.html").

(** [response.headers.get(name)] *)
Definition header (name : string) (r : Response) : option string :=
  snd <$> List.find (λ h, String.eqb (fst h) name) (headers r).

(** [s.includes(t)] *)
Fixpoint includes (s t : string) : bool :=
  String.prefix t s ||
  match s with
  | EmptyString => false
  | String _ s' => includes s' t
  end.

(** The world after the navigation branch has fetched and opened the store. *)
Definition fetched_opened (req : Request) (env : Env) (w : World) : World :=
  snd (caches_open CACHE_NAME env (log (EvFetch req) w)).

(** How often [skipWaiting] and [clients.claim] have been called. *)
Definition skip_waiting_calls (w : World) : nat :=
  List.length
    (omap (λ e, match e with EvSkipWaiting => Some () | _ => None end) (trace w)).

Definition claim_calls (w : World) : nat :=
  List.length (omap (λ e, match e with EvClaim => Some () | _ => None end) (trace w)).

(** A manifest URL is precached when the network answers its request with an
    [ok] response and the store accepts the copy. *)
Definition precached (host : Host) (env : Env) (cache u : string) : bool :=
  match net env (Request_of host u) with
  | Some r => ok r && put_ok env cache (resolve host u) r
  | None => false
  end.

(** The two phases of [cache.addAll] as world transformers. *)
Definition log_fetches (host : Host) (w : World) (urls : list string) : World :=
  foldl (λ w u, log (EvFetch (Request_of host u)) w) w urls.

Definition put_entries (cache : string) (w : World) (entries : list (string * Response))
    : World :=
  foldl (λ w e, set_caches (store_put cache e.1 e.2 (caches w))
                           (log (EvPut cache e.1 e.2) w)) w entries.

(** The world once [install] has opened the current store. *)
Definition opened (env : Env) (w : World) : World := snd (caches_open CACHE_NAME env w).

(** A store is stale when it follows the application's naming pattern and
    is not the current one: the filter of the [activate] listener. *)
Definition stale (key : string) : bool :=
  JsString.startsWith key "webtools-cache-" && negb (String.eqb key CACHE_NAME).

Definition stale_keys (w : World) : list string :=
  List.filter stale (elements (dom (caches w))).

(** The effect of the deletions [activate] starts. *)
Definition delete_all (env : Env) (w : World) (names : list string) : World :=
  foldl (λ w n, let w' := log (EvDelete n) w in
                if delete_ok env n then set_caches (delete n (caches w)) w' else w')
        w names.

Definition resolved {A} (r : Result A) : bool :=
  match r with Resolved _ => true | Rejected _ => false end.

(** ** A small host for the examples *)

Module Demo.

Fixpoint until_stop (s : string) : string :=
  match s with
  | EmptyString => EmptyString
  | String c s' =>
      if Ascii.eqb c "?" || Ascii.eqb c "#" then EmptyString else String c (until_stop s')
  end.

(** Split [scheme://authority/path?query] at the third slash. *)
Fixpoint split_at_slash (n : nat) (s : string) : string * string :=
  match s with
  | EmptyString => (EmptyString, EmptyString)
  | String c s' =>
      if Ascii.eqb c "/"
      then match n with
           | O => (EmptyString, s)
           | S n' => let '(a, b) := split_at_slash n' s' in (String c a, b)
           end
      else let '(a, b) := split_at_slash n s' in (String c a, b)
  end.

Definition parse (s : string) : URL :=
  let '(o, p) := split_at_slash 2 s in
  {| origin := o; pathname := until_stop p |}.

Definition host : Host :=
  {| SCOPE_PATH := "/WebTools/";
     location_origin := "https://oedosoldier.github.io";
     new_URL := parse |}.

(** What a server answering with status [s] gives the worker: a request
    made in [no-cors] mode only ever sees an opaque response. *)
Definition answer (s : Z) (rq : Request) : Response :=
  if String.eqb (mode rq) "no-cors"
  then {| status := 0; type := "opaque"; headers := []; body := EmptyString |}
  else {| status := s;
          type := if String.prefix (location_origin host) (url rq)
                  then "basic" else "cors";
          headers := [("Content-Type", "application/octet-stream")];
          body := url rq |}.

(** Everything is served with status 200 and every write succeeds. *)
Definition online : Env :=
  {| net := λ rq, Some (answer 200 rq);
     put_ok := λ _ _ _, true;
     delete_ok := λ _, true |}.

(** No request is answered. *)
Definition offline : Env :=
  {| net := λ _, None;
     put_ok := λ _ _ _, true;
     delete_ok := λ _, true |}.

(** Every request is answered with status 404. *)
Definition not_found : Env :=
  {| net := λ rq, Some (answer 404 rq);
     put_ok := λ _ _ _, true;
     delete_ok := λ _, true |}.

(** Online, except that the worker script of the manifest cannot be fetched. *)
Definition missing_worker : Env :=
  {| net := λ rq,
       if String.eqb (url rq) "https://oedosoldier.github.io/WebTools/gif.worker.js"
       then None else Some (answer 200 rq);
     put_ok := λ _ _ _, true;
     delete_ok := λ _, true |}.

(** Online, but the storage backend refuses every write. *)
Definition quota_exceeded : Env :=
  {| net := λ rq, Some (answer 200 rq);
     put_ok := λ _ _ _, false;
     delete_ok := λ _, true |}.

Definition empty : World := {| caches := ∅; trace := [] |}.

Definition navigation : Request :=
  {| method := "GET";
     url := "https://oedosoldier.github.io/WebTools/";
     mode := "navigate" |}.

Definition form_post : Request :=
  {| method := "POST";
     url := "https://oedosoldier.github.io/WebTools/";
     mode := "navigate" |}.

(** A script tag without [crossorigin]. *)
Definition script : Request :=
  {| method := "GET";
     url := "https://cdn.jsdelivr.net/npm/opencc-js@1.0.5/dist/umd/full.js";
     mode := "no-cors" |}.

(** A web font: fonts are always requested in [cors] mode. *)
Definition font : Request :=
  {| method := "GET";
     url := "https://fonts.gstatic.com/s/notosanssc/v36/k3kXo84MPvpLmixcA63oeALhL.woff2";
     mode := "cors" |}.

(** The page asks for its manifest. *)
Definition manifest : Request :=
  {| method := "GET";
     url := "https://oedosoldier.github.io/WebTools/manifest.webmanifest";
     mode := "cors" |}.

(** A request the worker leaves alone. *)
Definition analytics : Request :=
  {| method := "GET";
     url := "https://example.org/collect.js";
     mode := "no-cors" |}.

(** The script is already in the current store. *)
Definition warm : World :=
  {| caches := {[ CACHE_NAME := {[ url script := answer 200 script ]} ]};
     trace := [] |}.

(** Storage left behind by the previous version, next to a foreign store. *)
Definition old_version : World :=
  {| caches :=
       {[ "webtools-cache-v1.0.1" :=
            {[ "https://oedosoldier.github.io/WebTools/index.html" :=
                 answer 200 (Request_of host "/WebTools/index.html") ]};
          "user-settings" := ∅ ]};
     trace := [] |}.

End Demo.

(** ** The runtime-caching property of the specification *)

(** The second-request property as the specification words it: a GET
    request matching a runtime pattern is handled once, with a network fetch
    that the network answers; the same request handled again (under any
    network conditions) is then served from the current store without a new
    network fetch. *)
Definition second_request_served_from_cache : Prop :=
  ∀ host env1 env2 w req fresh o1 w1 o2 w2,
    method req = "GET" →
    existsb (λ re, Re.test re (url req)) RUNTIME_CDN_PATTERNS = true →
    handle_fetch host req env1 w = (o1, w1) →
    network_calls w1 = req :: network_calls w →
    net env1 req = Some fresh →
    handle_fetch host req env2 w1 = (o2, w2) →
    network_calls w2 = network_calls w1
    ∧ ∃ c, entry w1 CACHE_NAME (url req) = Some c ∧ o2 = Responded (Resolved c).

(** ** Definitions used in the further properties *)

(** The literals of [RUNTIME_CDN_PATTERNS], in order. *)
Definition RUNTIME_CDN_HOSTS : list string :=
  [ "https://cdn.tailwindcss.com";
    "https://fonts.googleapis.com";
    "https://fonts.gstatic.com";
    "https://img.icons8.com";
    "https://cdn.jsdelivr.net";
    "https://cdnjs.cloudflare.com" ].

(** [s] starts with [p], up to ASCII case. *)
Fixpoint ci_prefix (p s : string) : bool :=
  match p, s with
  | EmptyString, _ => true
  | String c p', String d s' => Re.ci_eqb c d && ci_prefix p' s'
  | String _ _, EmptyString => false
  end.

(** [s.toLowerCase()] on ASCII letters. *)
Fixpoint lower (s : string) : string :=
  match s with
  | EmptyString => EmptyString
  | String c s' => String (Re.to_lower c) (lower s')
  end.


(** Is the request same-origin and under [BASE]? (line 122 of sw.js) *)
Definition same_origin_under_BASE (host : Host) (req : Request) : bool :=
  String.eqb (origin (new_URL host (url req))) (location_origin host)
  && JsString.startsWith (pathname (new_URL host (url req))) (BASE host).

(** What happens to the worker after it has been installed: it is activated
    and it is handed requests, each under its own network conditions. *)
Inductive LifeEvent : Type :=
| OnActivate (env : Env)
| OnFetch (req : Request) (env : Env).

Definition life_step (host : Host) (w : World) (e : LifeEvent) : World :=
  match e with
  | OnActivate env => snd (activate env w)
  | OnFetch req env => snd (handle_fetch host req env w)
  end.

Definition live (host : Host) (events : list LifeEvent) (w : World) : World :=
  foldl (life_step host) w events.

(** The deletions [activate] has attempted so far, most recent first. *)
Definition deletions (w : World) : list string :=
  omap (λ e, match e with EvDelete n => Some n | _ => None end) (trace w).

(** ** Running the worker *)

Example BASE_of_root :
  BASE {| SCOPE_PATH := "/"; location_origin := "http://localhost:8000";
          new_URL := Demo.parse |} = "/".
Proof. reflexivity. Qed.

Example BASE_appends_separator :
  BASE {| SCOPE_PATH := "/WebTools"; location_origin := "https://oedosoldier.github.io";
          new_URL := Demo.parse |} = "/WebTools/".
Proof. reflexivity. Qed.

Example PRECACHE_URLS_of_demo :
  PRECACHE_URLS Demo.host =
  [ "/WebTools/"; "/WebTools/index.html"; "/WebTools/manifest.webmanifest";
    "/WebTools/gif.worker.js" ].
Proof. reflexivity. Qed.

Example pattern_ignores_case :
  existsb (λ re, Re.test re "HTTPS://CDN.JSDelivr.NET/npm/x.js") RUNTIME_CDN_PATTERNS
  = true.
Proof. reflexivity. Qed.

Example pattern_needs_the_host :
  existsb (λ re, Re.test re "https://example.org/cdn.jsdelivr.net") RUNTIME_CDN_PATTERNS
  = false.
Proof. reflexivity. Qed.

Example parse_splits_origin_and_path :
  Demo.parse "https://oedosoldier.github.io/WebTools/index.html?v=2"
  = {| origin := "https://oedosoldier.github.io"; pathname := "/WebTools/index.html" |}.
Proof. reflexivity. Qed.

Example unrelated_request_passes_through :
  handle_fetch Demo.host Demo.analytics Demo.online Demo.empty
  = (PassThrough, Demo.empty).
Proof. reflexivity. Qed.

Example script_is_cached_on_first_use :
  let '(o, w) := handle_fetch Demo.host Demo.script Demo.online Demo.empty in
  o = Responded (Resolved (Demo.answer 200 Demo.script))
  ∧ entry w CACHE_NAME (url Demo.script) = Some (Demo.answer 200 Demo.script)
  ∧ network_calls w = [Demo.script].
Proof. vm_compute. by repeat split. Qed.

Example install_online :
  let '(r, w) := install Demo.host Demo.online Demo.empty in
  r = Resolved ()
  ∧ skip_waiting_calls w = 1%nat
  ∧ app_stores w = [CACHE_NAME]
  ∧ entry w CACHE_NAME "https://oedosoldier.github.io/WebTools/index.html"
    = Some (Demo.answer 200 (Request_of Demo.host "/WebTools/index.html")).
Proof. vm_compute. by repeat split. Qed.

Example install_with_a_missing_file :
  let '(r, w) := install Demo.host Demo.missing_worker Demo.empty in
  r = Rejected NetworkError
  ∧ skip_waiting_calls w = 0%nat
  ∧ entry w CACHE_NAME "https://oedosoldier.github.io/WebTools/index.html" = None.
Proof. vm_compute. by repeat split. Qed.

Example font_answered_404_is_fetched_twice :
  let w1 := snd (handle_fetch Demo.host Demo.font Demo.not_found Demo.empty) in
  let w2 := snd (handle_fetch Demo.host Demo.font Demo.not_found w1) in
  entry w1 CACHE_NAME (url Demo.font) = None
  ∧ network_calls w1 = [Demo.font]
  ∧ network_calls w2 = [Demo.font; Demo.font].
Proof. vm_compute. by repeat split. Qed.

Example script_is_fetched_twice_when_the_write_fails :
  let '(o1, w1) := handle_fetch Demo.host Demo.script Demo.quota_exceeded Demo.empty in
  let w2 := snd (handle_fetch Demo.host Demo.script Demo.quota_exceeded w1) in
  o1 = Responded (Resolved (Demo.answer 200 Demo.script))
  ∧ entry w1 CACHE_NAME (url Demo.script) = None
  ∧ network_calls w2 = [Demo.script; Demo.script].
Proof. vm_compute. by repeat split. Qed.

Example activate_without_the_current_store :
  let '(r, w) := activate Demo.online Demo.old_version in
  r = Resolved () ∧ app_stores w = [].
Proof. vm_compute. by repeat split. Qed.

(** ** Cache storage lemmas *)

Section Storage.

Implicit Types (c : gmap string (gmap string Response)) (w : World).

Lemma entry_log e w n k : entry (log e w) n k = entry w n k.
Proof. reflexivity. Qed.

Lemma entry_set_caches c w n k :
  entry (set_caches c w) n k = c !! n ≫= λ store, store !! k.
Proof. reflexivity. Qed.

(** Creating an empty store adds no entry. *)
Lemma entry_create w name n k :
  caches w !! name = None →
  entry (set_caches (<[name := ∅]> (caches w)) w) n k = entry w n k.
Proof.
  intros Hnone. unfold entry; simpl.
  destruct (decide (name = n)) as [->|Hne].
  - rewrite lookup_insert_eq, Hnone. reflexivity.
  - rewrite lookup_insert_ne by done. reflexivity.
Qed.

Lemma lookup_store_put_eq c cache key r :
  store_put cache key r c !! cache ≫= (λ store, store !! key) = Some r.
Proof.
  unfold store_put. rewrite lookup_insert_eq. simpl. apply lookup_insert_eq.
Qed.

Lemma lookup_store_put_ne c cache key r n k :
  (n, k) ≠ (cache, key) →
  store_put cache key r c !! n ≫= (λ store, store !! k)
  = c !! n ≫= (λ store, store !! k).
Proof.
  intros Hne. unfold store_put.
  destruct (decide (cache = n)) as [->|Hn].
  - rewrite lookup_insert_eq. simpl.
    rewrite lookup_insert_ne by congruence.
    destruct (c !! n); reflexivity.
  - rewrite lookup_insert_ne by done. reflexivity.
Qed.

Lemma store_put_is_Some c cache key r n :
  is_Some (c !! n) → is_Some (store_put cache key r c !! n).
Proof.
  intros Hn. unfold store_put.
  destruct (decide (cache = n)) as [->|Hne].
  - rewrite lookup_insert_eq. eauto.
  - rewrite lookup_insert_ne by done. exact Hn.
Qed.

Lemma dom_store_put c cache key r :
  dom (store_put cache key r c) = {[cache]} ∪ dom c.
Proof. unfold store_put. apply dom_insert_L. Qed.

End Storage.

(** ** How the observations follow the log *)

Lemma network_calls_log e w :
  network_calls (log e w) =
  match e with EvFetch r => r :: network_calls w | _ => network_calls w end.
Proof. destruct e; reflexivity. Qed.

Lemma cache_writes_log e w :
  cache_writes (log e w) =
  match e with EvPut n k r => (n, k, r) :: cache_writes w | _ => cache_writes w end.
Proof. destruct e; reflexivity. Qed.

Lemma network_calls_set_caches c w : network_calls (set_caches c w) = network_calls w.
Proof. reflexivity. Qed.

Lemma cache_writes_set_caches c w : cache_writes (set_caches c w) = cache_writes w.
Proof. reflexivity. Qed.

Lemma caches_log e w : caches (log e w) = caches w.
Proof. reflexivity. Qed.

Lemma caches_set_caches c w : caches (set_caches c w) = c.
Proof. reflexivity. Qed.

Create Rewrite HintDb world.
#[export] Hint Rewrite network_calls_log cache_writes_log network_calls_set_caches
  cache_writes_set_caches caches_log caches_set_caches entry_log entry_set_caches : world.

Ltac observe := autorewrite with world; cbn beta iota.

(** What [caches.open] leaves behind. *)
Lemma caches_open_spec name env w :
  ∃ w', caches_open name env w = (Resolved name, w')
      ∧ trace w' = EvOpen name :: trace w
      ∧ is_Some (caches w' !! name)
      ∧ dom (caches w') = {[name]} ∪ dom (caches w)
      ∧ (∀ n k, entry w' n k = entry w n k).
Proof.
  unfold caches_open.
  destruct (caches w !! name) as [store|] eqn:Hstore.
  - eexists; split; [reflexivity|]. simpl.
    repeat split; eauto.
    apply elem_of_dom_2 in Hstore. apply set_eq. intros x.
    rewrite elem_of_union, elem_of_singleton.
    split; [auto | intros [->|]; auto].
  - eexists; split; [reflexivity|]. simpl.
    repeat split.
    + rewrite lookup_insert_eq. eauto.
    + apply dom_insert_L.
    + intros n k. apply (entry_create w name n k Hstore).
Qed.

(** ** The cache-first strategy *)

Section CacheFirst.

Context (env : Env) (w : World) (request : Request) (cacheName : string).

Lemma looked_up_trace :
  trace (looked_up env w request cacheName)
  = EvMatch cacheName (url request) :: EvOpen cacheName :: trace w.
Proof.
  unfold looked_up.
  destruct (caches_open_spec cacheName env w) as (w1 & -> & Htrace & _).
  simpl. by rewrite Htrace.
Qed.

Lemma looked_up_network :
  network_calls (looked_up env w request cacheName) = network_calls w.
Proof. unfold network_calls. by rewrite looked_up_trace. Qed.

Lemma looked_up_writes :
  cache_writes (looked_up env w request cacheName) = cache_writes w.
Proof. unfold cache_writes. by rewrite looked_up_trace. Qed.

Lemma looked_up_entry n k : entry (looked_up env w request cacheName) n k = entry w n k.
Proof.
  unfold looked_up.
  destruct (caches_open_spec cacheName env w) as (w1 & -> & _ & _ & _ & Hentry).
  apply Hentry.
Qed.

(** Hit: the cached response is returned right after the lookup. *)
Lemma cacheFirst_hit_eq c :
  entry w cacheName (url request) = Some c →
  cacheFirst request cacheName env w = (Resolved c, looked_up env w request cacheName).
Proof.
  intros Hhit. unfold looked_up.
  destruct (caches_open_spec cacheName env w) as (w1 & Hopen & _ & _ & _ & Hentry).
  unfold cacheFirst, mbind, Promise_bind at 1.
  rewrite Hopen. unfold Promise_bind at 1, cache_match.
  rewrite (Hentry cacheName (url request)), Hhit. reflexivity.
Qed.

(** Miss: the request goes to the network; the response is stored behind
    the status guard, and a failed write is swallowed. *)
Lemma cacheFirst_miss_eq :
  entry w cacheName (url request) = None →
  cacheFirst request cacheName env w =
    match net env request with
    | None =>
        (Rejected NetworkError, log (EvFetch request) (looked_up env w request cacheName))
    | Some response =>
        let w2 := log (EvFetch request) (looked_up env w request cacheName) in
        if cacheable response
        then let w3 := log (EvPut cacheName (url request) response) w2 in
             if put_ok env cacheName (url request) response
             then (Resolved response,
                   set_caches (store_put cacheName (url request) response (caches w2)) w3)
             else (Resolved response, w3)
        else (Resolved response, w2)
    end.
Proof.
  intros Hmiss. unfold looked_up.
  destruct (caches_open_spec cacheName env w) as (w1 & Hopen & _ & _ & _ & Hentry).
  unfold cacheFirst, mbind, Promise_bind at 1.
  rewrite Hopen. unfold Promise_bind at 1, cache_match.
  rewrite (Hentry cacheName (url request)), Hmiss.
  unfold try_catch at 1, Promise_bind at 1, fetch.
  destruct (net env request) as [response|]; [|reflexivity].
  unfold Promise_bind, cacheable, clone.
  destruct ((status response =? 200)%Z || String.eqb (type response) "opaque");
    [|reflexivity].
  unfold try_catch, cache_put.
  destruct (put_ok env cacheName (url request) response); reflexivity.
Qed.

End CacheFirst.

#[export] Hint Rewrite looked_up_network looked_up_writes looked_up_entry : world.

(** C6. A request whose response is already in the target store is answered
    with that cached response; [cacheFirst] performs no network fetch and
    attempts no cache write, and cache storage is left as it was. *)
Theorem cacheFirst_hit_serves_cache env w request cacheName c :
  entry w cacheName (url request) = Some c →
  ∃ w', cacheFirst request cacheName env w = (Resolved c, w')
      ∧ network_calls w' = network_calls w
      ∧ cache_writes w' = cache_writes w
      ∧ caches w' = caches w.
Proof.
  intros Hhit. rewrite (cacheFirst_hit_eq env w request cacheName c Hhit).
  eexists; split; [reflexivity|]. observe.
  repeat split. unfold looked_up, caches_open.
  unfold entry in Hhit. destruct (caches w !! cacheName); [reflexivity | discriminate].
Qed.

(** C7. On a cache miss answered by the network, [cacheFirst] resolves with
    the live response in every case.  It attempts to store a copy exactly
    when the response has status 200 or is opaque; a write that fails is
    swallowed, so afterwards the store holds the copy precisely when the
    guard holds and the write went through, and no other entry changes. *)
Theorem cacheFirst_miss_caches_guarded env w request cacheName response :
  entry w cacheName (url request) = None →
  net env request = Some response →
  ∃ w', cacheFirst request cacheName env w = (Resolved response, w')
      ∧ network_calls w' = request :: network_calls w
      ∧ cache_writes w' =
          (if (status response =? 200)%Z || String.eqb (type response) "opaque"
           then [(cacheName, url request, response)] else []) ++ cache_writes w
      ∧ entry w' cacheName (url request) =
          (if ((status response =? 200)%Z || String.eqb (type response) "opaque")
              && put_ok env cacheName (url request) response
           then Some response else None)
      ∧ (∀ n k, (n, k) ≠ (cacheName, url request) → entry w' n k = entry w n k).
Proof.
  intros Hmiss Hnet.
  rewrite (cacheFirst_miss_eq env w request cacheName Hmiss), Hnet.
  unfold cacheable.
  destruct ((status response =? 200)%Z || String.eqb (type response) "opaque");
    cbn beta iota zeta;
    [destruct (put_ok env cacheName (url request) response)|];
    (eexists; split; [reflexivity|]); observe; repeat split; try assumption.
  - apply lookup_store_put_eq.
  - intros n k Hne. observe. rewrite lookup_store_put_ne by exact Hne.
    apply looked_up_entry.
  - intros n k _. by observe.
  - intros n k _. by observe.
Qed.

(** C8. When the network fetch for the request rejects, [cacheFirst]
    resolves with the cached response if the lookup found one, and otherwise
    (having tried the network) rejects with the network error; no cache
    entry changes either way. *)
Theorem cacheFirst_network_failure env w request cacheName :
  net env request = None →
  ∃ w', cacheFirst request cacheName env w =
          (match entry w cacheName (url request) with
           | Some c => Resolved c
           | None => Rejected NetworkError
           end, w')
      ∧ network_calls w' =
          match entry w cacheName (url request) with
          | Some _ => network_calls w
          | None => request :: network_calls w
          end
      ∧ (∀ n k, entry w' n k = entry w n k).
Proof.
  intros Hnet.
  destruct (entry w cacheName (url request)) as [c|] eqn:Hentry.
  - rewrite (cacheFirst_hit_eq env w request cacheName c Hentry).
    eexists; split; [reflexivity|]. observe.
    split; [reflexivity | intros; by observe].
  - rewrite (cacheFirst_miss_eq env w request cacheName Hentry), Hnet.
    eexists; split; [reflexivity|]. observe.
    split; [reflexivity | intros; by observe].
Qed.

(** ** The request router *)

Section Router.

Context (host : Host).

Lemma on_fetch_not_GET req :
  method req ≠ "GET" → on_fetch host req = None.
Proof.
  intros Hm. unfold on_fetch.
  apply String.eqb_neq in Hm. by rewrite Hm.
Qed.

Lemma on_fetch_navigate req :
  method req = "GET" → mode req = "navigate" →
  on_fetch host req = Some (navigate host req).
Proof.
  intros Hm Hn. unfold on_fetch.
  rewrite Hm, Hn. reflexivity.
Qed.

(** Sub-resource requests matching a CDN pattern go to [cacheFirst] on the
    current store (whether or not they are also same-origin under [BASE]). *)
Lemma on_fetch_runtime req :
  method req = "GET" → mode req ≠ "navigate" →
  existsb (λ re, Re.test re (url req)) RUNTIME_CDN_PATTERNS = true →
  on_fetch host req = Some (cacheFirst req CACHE_NAME).
Proof.
  intros Hm Hn Hre. unfold on_fetch.
  apply String.eqb_neq in Hn. rewrite Hm, Hn, Hre. simpl.
  by destruct (_ && _).
Qed.

Lemma fetched_opened_network req env w :
  network_calls (fetched_opened req env w) = req :: network_calls w.
Proof.
  unfold fetched_opened.
  destruct (caches_open_spec CACHE_NAME env (log (EvFetch req) w))
    as (w1 & -> & Htrace & _).
  unfold network_calls. simpl. by rewrite Htrace.
Qed.

Lemma fetched_opened_writes req env w :
  cache_writes (fetched_opened req env w) = cache_writes w.
Proof.
  unfold fetched_opened.
  destruct (caches_open_spec CACHE_NAME env (log (EvFetch req) w))
    as (w1 & -> & Htrace & _).
  unfold cache_writes. simpl. by rewrite Htrace.
Qed.

Lemma fetched_opened_entry req env w n k :
  entry (fetched_opened req env w) n k = entry w n k.
Proof.
  unfold fetched_opened.
  destruct (caches_open_spec CACHE_NAME env (log (EvFetch req) w))
    as (w1 & -> & _ & _ & _ & Hentry).
  simpl. by rewrite Hentry.
Qed.

(** Network answered: the fresh response is returned; the shell entry is
    overwritten unless the write fails. *)
Lemma navigate_online_eq req env w fresh :
  net env req = Some fresh →
  navigate host req env w =
    let w2 := fetched_opened req env w in
    let w3 := log (EvPut CACHE_NAME (shell_key host) fresh) w2 in
    if put_ok env CACHE_NAME (shell_key host) fresh
    then (Resolved fresh,
          set_caches (store_put CACHE_NAME (shell_key host) fresh (caches w2)) w3)
    else (Resolved fresh, w3).
Proof.
  intros Hnet. unfold fetched_opened.
  destruct (caches_open_spec CACHE_NAME env (log (EvFetch req) w))
    as (w1 & Hopen & _).
  unfold navigate, try_catch at 1, mbind, Promise_bind at 1, fetch.
  rewrite Hnet. unfold Promise_bind at 1. rewrite Hopen.
  unfold Promise_bind, try_catch, cache_put, clone, shell_key. simpl.
  by destruct (put_ok env _ _ fresh).
Qed.

(** Network down: the cached shell, or else the inline offline page. *)
Lemma navigate_offline_eq req env w :
  net env req = None →
  navigate host req env w =
    (Resolved (default (offline_page) (entry w CACHE_NAME (shell_key host))),
     log (EvMatch CACHE_NAME (shell_key host)) (fetched_opened req env w)).
Proof.
  intros Hnet. unfold fetched_opened.
  destruct (caches_open_spec CACHE_NAME env (log (EvFetch req) w))
    as (w1 & Hopen & _ & _ & _ & Hentry).
  unfold navigate, try_catch at 1, mbind, Promise_bind at 1, fetch.
  rewrite Hnet. unfold Promise_bind at 1. rewrite Hopen.
  unfold Promise_bind, cache_match. fold (shell_key host).
  rewrite Hentry, entry_log. simpl.
  by destruct (entry w CACHE_NAME (shell_key host)).
Qed.

End Router.

#[export] Hint Rewrite fetched_opened_network fetched_opened_writes
  fetched_opened_entry : world.

(** C3. A request whose method is not GET is never answered by the worker:
    the listener returns without calling [respondWith], whatever the URL,
    origin or mode of the request, and the world (cache storage and the log
    of lookups, writes and fetches) is exactly what it was. *)
Theorem non_GET_passes_through host req env w :
  method req ≠ "GET" →
  on_fetch host req = None
  ∧ handle_fetch host req env w = (PassThrough, w).
Proof.
  intros Hm. unfold handle_fetch.
  rewrite (on_fetch_not_GET host req Hm). by split.
Qed.

(** C4. A navigation whose network fetch rejects is always answered: with
    the shell entry of the current store when there is one, and otherwise
    with the inline page, which has status 200, an HTML content type and
    the offline notice.  The handler does not reject and no entry changes. *)
Theorem navigation_offline_never_fails host req env w :
  method req = "GET" →
  mode req = "navigate" →
  net env req = None →
  ∃ r w',
    handle_fetch host req env w = (Responded (Resolved r), w')
    ∧ (∀ c, entry w CACHE_NAME (shell_key host) = Some c → r = c)
    ∧ (entry w CACHE_NAME (shell_key host) = None →
       r = offline_page
       ∧ status r = 200
       ∧ header "Content-Type" r = Some "text/html; charset=utf-8"
       ∧ includes (body r) "离线模式" = true)
    ∧ (∀ n k, entry w' n k = entry w n k).
Proof.
  intros Hm Hn Hnet. unfold handle_fetch.
  rewrite (on_fetch_navigate host req Hm Hn).
  rewrite (navigate_offline_eq host req env w Hnet).
  do 2 eexists. split; [reflexivity|].
  split; [|split].
  - intros c Hc. by rewrite Hc.
  - intros Hnone. rewrite Hnone. by vm_compute.
  - intros n k. by observe.
Qed.

(** C5. A navigation answered by the network resolves with the live
    response itself.  The shell entry of the current store becomes a copy of
    it; if that write fails the failure is swallowed: the response returned
    is the same and the entry stays as it was.  No other entry changes. *)
Theorem navigation_online_returns_fresh host req env w fresh :
  method req = "GET" →
  mode req = "navigate" →
  net env req = Some fresh →
  ∃ w',
    handle_fetch host req env w = (Responded (Resolved fresh), w')
    ∧ entry w' CACHE_NAME (shell_key host) =
        (if put_ok env CACHE_NAME (shell_key host) fresh
         then Some fresh
         else entry w CACHE_NAME (shell_key host))
    ∧ (∀ n k, (n, k) ≠ (CACHE_NAME, shell_key host) → entry w' n k = entry w n k).
Proof.
  intros Hm Hn Hnet. unfold handle_fetch.
  rewrite (on_fetch_navigate host req Hm Hn).
  rewrite (navigate_online_eq host req env w fresh Hnet). cbn zeta.
  destruct (put_ok env CACHE_NAME (shell_key host) fresh);
    (eexists; split; [reflexivity|]); observe; split.
  - apply lookup_store_put_eq.
  - intros n k Hne. observe. rewrite lookup_store_put_ne by exact Hne.
    apply fetched_opened_entry.
  - reflexivity.
  - intros n k _. by observe.
Qed.

(** C10. The navigation branch has no guard on what it caches: for every
    response the network gives, whatever its status and type, it issues the
    write of that response under the shell key, and the shell entry is
    overwritten with it once the write goes through.  [cacheFirst], given
    the same response on a miss, issues no write when the response is
    neither status 200 nor opaque. *)
Theorem navigation_caches_any_response host req env w fresh :
  method req = "GET" →
  mode req = "navigate" →
  net env req = Some fresh →
  ∃ o w',
    handle_fetch host req env w = (o, w')
    ∧ cache_writes w' = (CACHE_NAME, shell_key host, fresh) :: cache_writes w
    ∧ (put_ok env CACHE_NAME (shell_key host) fresh = true →
       entry w' CACHE_NAME (shell_key host) = Some fresh)
    ∧ (cacheable fresh = false →
       ∀ cacheName w0, entry w0 cacheName (url req) = None →
         cache_writes (snd (cacheFirst req cacheName env w0)) = cache_writes w0).
Proof.
  intros Hm Hn Hnet. unfold handle_fetch.
  rewrite (on_fetch_navigate host req Hm Hn).
  rewrite (navigate_online_eq host req env w fresh Hnet). cbn zeta.
  assert (cacheable fresh = false →
          ∀ cacheName w0, entry w0 cacheName (url req) = None →
            cache_writes (snd (cacheFirst req cacheName env w0)) = cache_writes w0)
    as Hguard.
  { intros Hc cacheName w0 Hmiss.
    rewrite (cacheFirst_miss_eq env w0 req cacheName Hmiss), Hnet. cbn zeta.
    rewrite Hc. simpl. by observe. }
  destruct (put_ok env CACHE_NAME (shell_key host) fresh);
    (do 2 eexists; split; [reflexivity|]); observe; (split; [reflexivity|]);
    (split; [|exact Hguard]).
  - intros _. apply lookup_store_put_eq.
  - discriminate.
Qed.

(** ** Runtime caching of CDN resources *)

(** C9, as stated, fails: a web font that the CDN answers with status 404 is
    not stored, so the second request for it goes to the network again. *)
Lemma second_request_refetches_after_404 : ¬ second_request_served_from_cache.
Proof.
  intros Hclaim.
  pose (h1 := handle_fetch Demo.host Demo.font Demo.not_found Demo.empty).
  pose (h2 := handle_fetch Demo.host Demo.font Demo.not_found (snd h1)).
  destruct (Hclaim Demo.host Demo.not_found Demo.not_found Demo.empty Demo.font
              (Demo.answer 404 Demo.font) (fst h1) (snd h1) (fst h2) (snd h2))
    as [Hnet _]; try (vm_compute; reflexivity).
  vm_compute in Hnet. discriminate Hnet.
Qed.

(** A navigation is handled by the network-first branch even when its URL
    matches a runtime pattern: every handling of it goes to the network. *)
Lemma navigation_always_fetches host env w req :
  method req = "GET" →
  mode req = "navigate" →
  network_calls (snd (handle_fetch host req env w)) = req :: network_calls w.
Proof.
  intros Hm Hn. unfold handle_fetch.
  rewrite (on_fetch_navigate host req Hm Hn).
  destruct (net env req) as [fresh|] eqn:Hnet.
  - rewrite (navigate_online_eq host req env w fresh Hnet). cbn zeta.
    destruct (put_ok env _ _ _); simpl; by observe.
  - rewrite (navigate_offline_eq host req env w Hnet). simpl. by observe.
Qed.

(** C9, amended. For a GET request that is not a navigation and whose URL
    matches a runtime pattern: after one handling in which the network
    answers with a response that has status 200 or is opaque, and the write
    of its copy succeeds, the same request handled again resolves with that
    response from the current store and makes no new network fetch. *)
Theorem second_request_served_from_cache_when_stored
    host env1 env2 w req fresh o1 w1 o2 w2 :
  method req = "GET" →
  mode req ≠ "navigate" →
  existsb (λ re, Re.test re (url req)) RUNTIME_CDN_PATTERNS = true →
  handle_fetch host req env1 w = (o1, w1) →
  network_calls w1 = req :: network_calls w →
  net env1 req = Some fresh →
  (status fresh =? 200)%Z || String.eqb (type fresh) "opaque" = true →
  put_ok env1 CACHE_NAME (url req) fresh = true →
  handle_fetch host req env2 w1 = (o2, w2) →
  network_calls w2 = network_calls w1
  ∧ entry w1 CACHE_NAME (url req) = Some fresh
  ∧ o1 = Responded (Resolved fresh)
  ∧ o2 = Responded (Resolved fresh).
Proof.
  intros Hm Hn Hre H1 Hcalls Hnet Hguard Hput H2.
  unfold handle_fetch in H1, H2.
  rewrite (on_fetch_runtime host req Hm Hn Hre) in H1, H2.
  destruct (entry w CACHE_NAME (url req)) as [c|] eqn:Hentry.
  { (* a hit would not have gone to the network *)
    rewrite (cacheFirst_hit_eq env1 w req CACHE_NAME c Hentry) in H1.
    injection H1 as <- <-. revert Hcalls. observe. intros Hcalls.
    apply (f_equal (@List.length Request)) in Hcalls. simpl in Hcalls. lia. }
  rewrite (cacheFirst_miss_eq env1 w req CACHE_NAME Hentry), Hnet in H1.
  cbn zeta in H1. unfold cacheable in H1. rewrite Hguard, Hput in H1.
  injection H1 as <- Hw1.
  assert (entry w1 CACHE_NAME (url req) = Some fresh) as Hstored.
  { rewrite <- Hw1. observe. apply lookup_store_put_eq. }
  rewrite (cacheFirst_hit_eq env2 w1 req CACHE_NAME fresh Hstored) in H2.
  injection H2 as <- <-. observe. by repeat split.
Qed.

(** ** Install *)

Lemma skip_waiting_calls_log e w :
  skip_waiting_calls (log e w) =
  match e with EvSkipWaiting => S (skip_waiting_calls w) | _ => skip_waiting_calls w end.
Proof. destruct e; reflexivity. Qed.

Lemma skip_waiting_calls_set_caches c w :
  skip_waiting_calls (set_caches c w) = skip_waiting_calls w.
Proof. reflexivity. Qed.

#[export] Hint Rewrite skip_waiting_calls_log skip_waiting_calls_set_caches : world.

Section AddAll.

Context (host : Host) (env : Env) (cache : string).

Lemma log_fetches_caches urls w : caches (log_fetches host w urls) = caches w.
Proof.
  revert w. induction urls as [|u urls IH]; intros w; [reflexivity|].
  simpl. by rewrite IH.
Qed.

Lemma log_fetches_entry urls w n k : entry (log_fetches host w urls) n k = entry w n k.
Proof. unfold entry. by rewrite log_fetches_caches. Qed.

Lemma log_fetches_skip urls w :
  skip_waiting_calls (log_fetches host w urls) = skip_waiting_calls w.
Proof.
  revert w. induction urls as [|u urls IH]; intros w; [reflexivity|].
  simpl. by rewrite IH.
Qed.

Lemma put_entries_skip entries w :
  skip_waiting_calls (put_entries cache w entries) = skip_waiting_calls w.
Proof.
  revert w. induction entries as [|e entries IH]; intros w; [reflexivity|].
  simpl. by rewrite IH.
Qed.

Lemma put_entries_is_Some entries w n :
  is_Some (caches w !! n) → is_Some (caches (put_entries cache w entries) !! n).
Proof.
  revert w. induction entries as [|e entries IH]; intros w Hn; [exact Hn|].
  simpl. apply IH. simpl. by apply store_put_is_Some.
Qed.

(** Writing a batch whose keys determine their responses leaves every one
    of them in the store. *)
Lemma put_entries_entry entries w k r :
  (∀ r', (k, r') ∈ entries → r' = r) →
  (k, r) ∈ entries ∨ entry w cache k = Some r →
  entry (put_entries cache w entries) cache k = Some r.
Proof.
  revert w. induction entries as [|[k0 r0] entries IH]; intros w Hfun Hin.
  - destruct Hin as [Hin|Hin]; [by apply elem_of_nil in Hin | exact Hin].
  - simpl. apply IH.
    + intros r' Hr'. apply Hfun. by right.
    + destruct (decide (k0 = k)) as [->|Hne].
      * right. rewrite (Hfun r0) by left.
        rewrite entry_set_caches. apply lookup_store_put_eq.
      * destruct Hin as [Hin|Hin].
        -- apply elem_of_cons in Hin as [Hin|Hin]; [congruence | by left].
        -- right. rewrite entry_set_caches, ?caches_log.
           rewrite lookup_store_put_ne by congruence. exact Hin.
Qed.

(** What [fetch_all] collects: the response of every URL, under its key. *)
Lemma fetch_all_complete urls entries u :
  fetch_all host env urls = Some entries →
  u ∈ urls →
  ∃ r, net env (Request_of host u) = Some r ∧ (resolve host u, r) ∈ entries.
Proof.
  revert entries. induction urls as [|u0 urls IH]; intros entries Hall Hin.
  - by apply elem_of_nil in Hin.
  - simpl in Hall.
    destruct (net env (Request_of host u0)) as [r0|] eqn:Hnet; [|discriminate].
    destruct (ok r0); [|discriminate].
    destruct (fetch_all host env urls) as [l|]; [|discriminate].
    injection Hall as <-.
    apply elem_of_cons in Hin as [->|Hin].
    + exists r0. split; [exact Hnet | left].
    + destruct (IH l eq_refl Hin) as (r & Hr & Hl).
      exists r. split; [exact Hr | by right].
Qed.

Lemma fetch_all_sound urls entries k r :
  fetch_all host env urls = Some entries →
  (k, r) ∈ entries →
  net env {| method := "GET"; url := k; mode := "cors" |} = Some r.
Proof.
  revert entries. induction urls as [|u0 urls IH]; intros entries Hall Hin; simpl in Hall.
  - injection Hall as <-. by apply elem_of_nil in Hin.
  - destruct (net env (Request_of host u0)) as [r0|] eqn:Hnet; [|discriminate].
    destruct (ok r0); [|discriminate].
    destruct (fetch_all host env urls) as [l|]; [|discriminate].
    injection Hall as <-.
    apply elem_of_cons in Hin as [Heq|Hin].
    + injection Heq as -> ->. exact Hnet.
    + by apply (IH l).
Qed.

Lemma fetch_all_precached urls :
  match fetch_all host env urls with
  | Some entries => forallb (λ e, put_ok env cache e.1 e.2) entries
  | None => false
  end = forallb (precached host env cache) urls.
Proof.
  induction urls as [|u urls IH]; [reflexivity|].
  simpl. unfold precached at 1.
  destruct (net env (Request_of host u)) as [r|]; [|reflexivity].
  destruct (ok r); [|reflexivity].
  destruct (fetch_all host env urls) as [l|]; simpl.
  - by rewrite <- IH.
  - rewrite <- IH. by rewrite andb_false_r.
Qed.

Lemma fetch_all_None_of_network_failure urls u :
  u ∈ urls → net env (Request_of host u) = None → fetch_all host env urls = None.
Proof.
  intros Hin Hnet. induction urls as [|u0 urls IH]; [by apply elem_of_nil in Hin|].
  simpl. apply elem_of_cons in Hin as [<-|Hin].
  - by rewrite Hnet.
  - rewrite (IH Hin).
    destruct (net env (Request_of host u0)) as [r|]; [|reflexivity].
    by destruct (ok r).
Qed.

(** [cache.addAll] resolves exactly when every URL is precached; then every
    URL has its response in the store, otherwise storage is untouched. *)
Lemma cache_addAll_eq urls w :
  cache_addAll host cache urls env w =
    match fetch_all host env urls with
    | None => (Rejected NetworkError, log_fetches host w urls)
    | Some entries =>
        if forallb (precached host env cache) urls
        then (Resolved (), put_entries cache (log_fetches host w urls) entries)
        else (Rejected WriteError, log_fetches host w urls)
    end.
Proof.
  unfold cache_addAll. fold (log_fetches host w urls).
  pose proof (fetch_all_precached urls) as Hpre.
  destruct (fetch_all host env urls) as [entries|]; [|reflexivity].
  rewrite Hpre. reflexivity.
Qed.

End AddAll.

Lemma forallb_elem_of {A} (f : A → bool) (l : list A) :
  forallb f l = true ↔ ∀ x, x ∈ l → f x = true.
Proof.
  rewrite forallb_forall. split; intros H x Hx; apply H; by apply list_elem_of_In.
Qed.

Section Install.

Context (host : Host) (env : Env) (w : World).

Lemma install_eq :
  install host env w =
    let w2 := log_fetches host (opened env w) (PRECACHE_URLS host) in
    match fetch_all host env (PRECACHE_URLS host) with
    | None => (Rejected NetworkError, w2)
    | Some entries =>
        if forallb (precached host env CACHE_NAME) (PRECACHE_URLS host)
        then (Resolved (), log EvSkipWaiting (put_entries CACHE_NAME w2 entries))
        else (Rejected WriteError, w2)
    end.
Proof.
  unfold opened.
  destruct (caches_open_spec CACHE_NAME env w) as (w1 & Hopen & _).
  unfold install, mbind, Promise_bind at 1. rewrite Hopen.
  unfold Promise_bind. rewrite cache_addAll_eq. cbn zeta.
  destruct (fetch_all host env (PRECACHE_URLS host)) as [entries|]; [|reflexivity].
  by destruct (forallb _ _).
Qed.

Lemma opened_entry n k : entry (opened env w) n k = entry w n k.
Proof.
  unfold opened.
  destruct (caches_open_spec CACHE_NAME env w) as (w1 & -> & _ & _ & _ & Hentry).
  apply Hentry.
Qed.

Lemma opened_skip : skip_waiting_calls (opened env w) = skip_waiting_calls w.
Proof.
  unfold opened.
  destruct (caches_open_spec CACHE_NAME env w) as (w1 & -> & Htrace & _).
  unfold skip_waiting_calls. simpl. by rewrite Htrace.
Qed.

Lemma opened_is_Some : is_Some (caches (opened env w) !! CACHE_NAME).
Proof.
  unfold opened.
  by destruct (caches_open_spec CACHE_NAME env w) as (w1 & -> & _ & Hsome & _).
Qed.

(** Whether or not it succeeds, [install] leaves the current store open. *)
Lemma install_opens_current_store :
  is_Some (caches (snd (install host env w)) !! CACHE_NAME).
Proof.
  rewrite install_eq. cbn zeta.
  pose proof opened_is_Some as Hopen.
  rewrite <- (log_fetches_caches host (PRECACHE_URLS host) (opened env w)) in Hopen.
  destruct (fetch_all host env (PRECACHE_URLS host)) as [entries|]; [|exact Hopen].
  destruct (forallb _ _); [|exact Hopen].
  simpl. by apply put_entries_is_Some.
Qed.

End Install.

(** C1. Install is all-or-nothing.  The promise handed to [waitUntil]
    resolves if and only if every URL of the precache manifest is fetched
    with an [ok] response and stored; a single manifest fetch that fails
    makes it reject; [skipWaiting] is called once when it resolves and not
    at all when it rejects.  On success every manifest URL has its response
    in the current store; on failure no cache entry has changed. *)
Theorem install_all_or_nothing host env w :
  ∃ r w',
    install host env w = (r, w')
    ∧ (r = Resolved () ↔
       ∀ u, u ∈ PRECACHE_URLS host → precached host env CACHE_NAME u = true)
    ∧ (∀ u, u ∈ PRECACHE_URLS host → net env (Request_of host u) = None →
       r = Rejected NetworkError)
    ∧ skip_waiting_calls w' =
        match r with
        | Resolved _ => S (skip_waiting_calls w)
        | Rejected _ => skip_waiting_calls w
        end
    ∧ match r with
      | Resolved _ =>
          ∀ u, u ∈ PRECACHE_URLS host →
               is_Some (net env (Request_of host u))
               ∧ entry w' CACHE_NAME (resolve host u) = net env (Request_of host u)
      | Rejected _ => ∀ n k, entry w' n k = entry w n k
      end.
Proof.
  rewrite install_eq. cbn zeta.
  pose proof (fetch_all_precached host env CACHE_NAME (PRECACHE_URLS host)) as Hpre.
  pose proof (forallb_elem_of (precached host env CACHE_NAME) (PRECACHE_URLS host))
    as Hiff.
  destruct (fetch_all host env (PRECACHE_URLS host)) as [entries|] eqn:Hall.
  - destruct (forallb (precached host env CACHE_NAME) (PRECACHE_URLS host)) eqn:Hforall.
    + do 2 eexists. split; [reflexivity|].
      split; [|split; [|split]].
      * rewrite <- Hiff. by split.
      * intros u Hu Hnet.
        destruct (fetch_all_complete host env _ _ u Hall Hu) as (r & Hr & _).
        congruence.
      * observe. by rewrite put_entries_skip, log_fetches_skip, opened_skip.
      * intros u Hu.
        destruct (fetch_all_complete host env _ _ u Hall Hu) as (r & Hr & Hin).
        rewrite Hr. split; [eauto|]. observe.
        apply put_entries_entry; [|by left].
        intros r' Hr'. apply (fetch_all_sound host env _ _ _ _ Hall) in Hr'.
        unfold Request_of in Hr. congruence.
    + do 2 eexists. split; [reflexivity|].
      split; [|split; [|split]].
      * rewrite <- Hiff. by split.
      * intros u Hu Hnet.
        rewrite (fetch_all_None_of_network_failure host env _ u Hu Hnet) in Hall.
        discriminate.
      * by rewrite log_fetches_skip, opened_skip.
      * intros n k. by rewrite log_fetches_entry, opened_entry.
  - do 2 eexists. split; [reflexivity|].
    split; [|split; [|split]].
    + rewrite <- Hiff, <- Hpre. by split.
    + reflexivity.
    + by rewrite log_fetches_skip, opened_skip.
    + intros n k. by rewrite log_fetches_entry, opened_entry.
Qed.

(** ** Activate *)

Lemma elem_of_List_filter {A} (f : A → bool) (l : list A) x :
  x ∈ List.filter f l ↔ x ∈ l ∧ f x = true.
Proof. rewrite !list_elem_of_In. apply filter_In. Qed.

Lemma NoDup_List_filter {A} (f : A → bool) (l : list A) :
  NoDup l → NoDup (List.filter f l).
Proof. rewrite !NoDup_ListNoDup. apply List.NoDup_filter. Qed.

(** A duplicate-free list with a single possible member is that member. *)
Lemma NoDup_unique {A} (l : list A) a :
  NoDup l → (∀ x, x ∈ l ↔ x = a) → l = [a].
Proof.
  intros Hnd Hmem. destruct l as [|x l].
  - exfalso. apply (not_elem_of_nil a). by apply Hmem.
  - assert (x = a) as -> by (apply Hmem; left).
    apply NoDup_cons in Hnd as [Hnotin _].
    destruct l as [|y l]; [reflexivity|].
    exfalso. apply Hnotin.
    assert (y = a) as -> by (apply Hmem; right; left). left.
Qed.

Section Deletions.

Context (env : Env).

Lemma Promise_all_deletes_world names w :
  snd (Promise_all (map caches_delete names) env w) = delete_all env w names.
Proof.
  revert w. induction names as [|n names IH]; intros w; [reflexivity|].
  simpl. unfold caches_delete at 1.
  destruct (delete_ok env n); simpl.
  - rewrite <- IH. by destruct (Promise_all _ env _) as [[l|e] w2].
  - by rewrite <- IH.
Qed.

Lemma Promise_all_deletes_resolved names w :
  resolved (fst (Promise_all (map caches_delete names) env w))
  = forallb (delete_ok env) names.
Proof.
  revert w. induction names as [|n names IH]; intros w; [reflexivity|].
  simpl. unfold caches_delete at 1.
  destruct (delete_ok env n); simpl; [|reflexivity].
  rewrite <- (IH (set_caches (delete n (caches w)) (log (EvDelete n) w))).
  by destruct (Promise_all _ env _) as [[l|e] w2].
Qed.

(** When every deletion goes through, exactly the named stores are gone. *)
Lemma delete_all_lookup names w n :
  forallb (delete_ok env) names = true →
  caches (delete_all env w names) !! n =
    if bool_decide (n ∈ names) then None else caches w !! n.
Proof.
  revert w. induction names as [|n0 names IH]; intros w Hok; [reflexivity|].
  simpl in Hok. apply andb_true_iff in Hok as [Hok0 Hok].
  simpl. rewrite Hok0, (IH _ Hok). simpl.
  destruct (decide (n = n0)) as [->|Hne].
  - rewrite lookup_delete_eq, (bool_decide_eq_true_2 (n0 ∈ n0 :: names)) by left.
    by destruct (bool_decide _).
  - rewrite lookup_delete_ne by done.
    destruct (bool_decide (n ∈ names)) eqn:Hin.
    + apply bool_decide_eq_true_1 in Hin.
      by rewrite (bool_decide_eq_true_2 (n ∈ n0 :: names)) by (by right).
    + apply bool_decide_eq_false_1 in Hin.
      rewrite (bool_decide_eq_false_2 (n ∈ n0 :: names)); [done|].
      intros [?|?]%elem_of_cons; [done | by apply Hin].
Qed.

Lemma delete_all_claim names w :
  claim_calls (delete_all env w names) = claim_calls w.
Proof.
  revert w. induction names as [|n names IH]; intros w; [reflexivity|].
  simpl. rewrite IH. by destruct (delete_ok env n).
Qed.

(** [activate] resolves exactly when every stale store could be deleted,
    and calls [clients.claim] only then, after the deletions. *)
Lemma activate_eq w :
  ∃ r, activate env w =
       (r, let w2 := delete_all env (log EvKeys w) (stale_keys w) in
           if forallb (delete_ok env) (stale_keys w) then log EvClaim w2 else w2)
     ∧ resolved r = forallb (delete_ok env) (stale_keys w).
Proof.
  unfold activate, mbind, Promise_bind at 1, caches_keys.
  unfold Promise_bind. fold stale. fold (stale_keys w).
  pose proof (Promise_all_deletes_world (stale_keys w) (log EvKeys w)) as Hw.
  pose proof (Promise_all_deletes_resolved (stale_keys w) (log EvKeys w)) as Hr.
  destruct (Promise_all _ env _) as [[l|e] w2]; simpl in Hw, Hr; subst w2;
    rewrite <- Hr; eexists; (split; [reflexivity|]); reflexivity.
Qed.

End Deletions.

Lemma elem_of_stale_keys w n :
  n ∈ stale_keys w ↔ is_Some (caches w !! n) ∧ stale n = true.
Proof.
  unfold stale_keys. by rewrite elem_of_List_filter, elem_of_elements, elem_of_dom.
Qed.

Lemma CACHE_NAME_not_stale : stale CACHE_NAME = false.
Proof. reflexivity. Qed.

Lemma CACHE_NAME_matches : JsString.startsWith CACHE_NAME "webtools-cache-" = true.
Proof. reflexivity. Qed.

(** What a completed [activate] leaves in cache storage: every stale store
    is gone, every other store is as it was, and [clients.claim] was the
    last call. *)
Lemma activate_resolved env w w' :
  activate env w = (Resolved (), w') →
  (∀ n, caches w' !! n = if stale n then None else caches w !! n)
  ∧ head (trace w') = Some EvClaim
  ∧ claim_calls w' = S (claim_calls w).
Proof.
  intros Hact.
  destruct (activate_eq env w) as (r & Heq & Hres).
  rewrite Hact in Heq. injection Heq as <- ->.
  simpl in Hres. rewrite <- Hres. cbn zeta.
  split; [|split].
  - intros n. rewrite caches_log, delete_all_lookup by done.
    rewrite caches_log. destruct (stale n) eqn:Hstale.
    + destruct (caches w !! n) as [store|] eqn:Hn.
      * rewrite bool_decide_eq_true_2; [done|].
        apply elem_of_stale_keys. rewrite Hn. eauto.
      * by destruct (bool_decide _).
    + rewrite bool_decide_eq_false_2; [done|].
      intros [_ ?]%elem_of_stale_keys. congruence.
  - reflexivity.
  - unfold claim_calls at 1. simpl. f_equal.
    apply (delete_all_claim env (stale_keys w) (log EvKeys w)).
Qed.

(** With the current store in place, a completed [activate] leaves it as the
    only store following the application's naming pattern. *)
Lemma activate_app_stores env w w' :
  is_Some (caches w !! CACHE_NAME) →
  activate env w = (Resolved (), w') →
  app_stores w' = [CACHE_NAME].
Proof.
  intros Hcur Hact.
  destruct (activate_resolved env w w' Hact) as (Hlookup & _).
  apply NoDup_unique.
  - apply NoDup_List_filter, NoDup_elements.
  - intros n. unfold app_stores.
    rewrite elem_of_List_filter, elem_of_elements, elem_of_dom, Hlookup.
    unfold stale. split.
    + intros [Hsome Hprefix]. rewrite Hprefix in Hsome. simpl in Hsome.
      destruct (String.eqb n CACHE_NAME) eqn:Heq.
      * by apply String.eqb_eq.
      * simpl in Hsome. by destruct Hsome.
    + intros ->. rewrite CACHE_NAME_matches, String.eqb_refl. by split.
Qed.

(** C2. Once a version has been installed and its [activate] completes,
    listing the cache stores yields exactly one name following the
    application's pattern, the current store's.  [activate] has deleted
    every store that follows the pattern under another name, has left all
    other stores alone, and has called [clients.claim] last. *)
Theorem activate_leaves_only_current_store host env1 env2 w0 w1 w2 :
  install host env1 w0 = (Resolved (), w1) →
  activate env2 w1 = (Resolved (), w2) →
  app_stores w2 = [CACHE_NAME]
  ∧ (∀ name, JsString.startsWith name "webtools-cache-" = true →
             name ≠ CACHE_NAME → caches w2 !! name = None)
  ∧ (∀ name,
       JsString.startsWith name "webtools-cache-" = false ∨ name = CACHE_NAME →
       caches w2 !! name = caches w1 !! name)
  ∧ head (trace w2) = Some EvClaim
  ∧ claim_calls w2 = S (claim_calls w1).
Proof.
  intros Hinstall Hact.
  pose proof (install_opens_current_store host env1 w0) as Hcur.
  rewrite Hinstall in Hcur. simpl in Hcur.
  destruct (activate_resolved env2 w1 w2 Hact) as (Hlookup & Hlast & Hclaim).
  split; [by apply (activate_app_stores env2 w1)|].
  split; [|split; [|by split]].
  - intros name Hprefix Hne. rewrite Hlookup. unfold stale.
    apply String.eqb_neq in Hne. by rewrite Hprefix, Hne.
  - intros name Hkeep. rewrite Hlookup. unfold stale.
    destruct Hkeep as [Hprefix| ->].
    + by rewrite Hprefix.
    + by rewrite String.eqb_refl, andb_false_r.
Qed.

(** ** The stores while the worker handles requests *)

Lemma caches_open_existing name env w :
  is_Some (caches w !! name) →
  caches_open name env w = (Resolved name, log (EvOpen name) w).
Proof. intros [store Hstore]. unfold caches_open. by rewrite Hstore. Qed.

Lemma dom_store_put_existing (c : gmap string (gmap string Response)) cache key r :
  is_Some (c !! cache) → dom (store_put cache key r c) = dom c.
Proof.
  intros Hc. rewrite dom_store_put. apply elem_of_dom in Hc.
  apply set_eq. intros x. rewrite elem_of_union, elem_of_singleton.
  split; [intros [->|]; auto | auto].
Qed.

Lemma cacheFirst_keeps_stores request cacheName env w :
  is_Some (caches w !! cacheName) →
  dom (caches (snd (cacheFirst request cacheName env w))) = dom (caches w).
Proof.
  intros Hc.
  assert (caches (looked_up env w request cacheName) = caches w) as Hlooked.
  { unfold looked_up. by rewrite (caches_open_existing cacheName env w Hc). }
  destruct (entry w cacheName (url request)) as [c|] eqn:Hentry.
  - rewrite (cacheFirst_hit_eq env w request cacheName c Hentry).
    cbn [snd]. by rewrite Hlooked.
  - rewrite (cacheFirst_miss_eq env w request cacheName Hentry).
    destruct (net env request) as [response|]; cbn zeta.
    + destruct (cacheable response);
        [destruct (put_ok env cacheName (url request) response)|];
        cbn [snd]; observe; rewrite Hlooked; try reflexivity.
      by apply dom_store_put_existing.
    + cbn [snd]. observe. by rewrite Hlooked.
Qed.

Lemma navigate_keeps_stores host req env w :
  is_Some (caches w !! CACHE_NAME) →
  dom (caches (snd (navigate host req env w))) = dom (caches w).
Proof.
  intros Hc.
  assert (caches (fetched_opened req env w) = caches w) as Hopened.
  { unfold fetched_opened.
    by rewrite (caches_open_existing CACHE_NAME env (log (EvFetch req) w) Hc). }
  destruct (net env req) as [fresh|] eqn:Hnet.
  - rewrite (navigate_online_eq host req env w fresh Hnet). cbn zeta.
    destruct (put_ok env CACHE_NAME (shell_key host) fresh); cbn [snd]; observe;
      rewrite Hopened; [by apply dom_store_put_existing | reflexivity].
  - rewrite (navigate_offline_eq host req env w Hnet). cbn [snd]. observe.
    by rewrite Hopened.
Qed.

(** Handling a request creates and deletes no store once the current store
    exists, so the outcome of [activate] persists while requests are served. *)
Lemma handle_fetch_keeps_stores host req env w :
  is_Some (caches w !! CACHE_NAME) →
  dom (caches (snd (handle_fetch host req env w))) = dom (caches w).
Proof.
  intros Hc. unfold handle_fetch, on_fetch.
  destruct (negb (String.eqb (method req) "GET")); [reflexivity|].
  destruct (String.eqb (mode req) "navigate").
  { pose proof (navigate_keeps_stores host req env w Hc) as Hnav.
    by destruct (navigate host req env w). }
  pose proof (cacheFirst_keeps_stores req CACHE_NAME env w Hc) as Hcf.
  destruct (_ && _); [by destruct (cacheFirst req CACHE_NAME env w)|].
  destruct (existsb _ _); [by destruct (cacheFirst req CACHE_NAME env w)|].
  reflexivity.
Qed.

Lemma handle_fetch_preserves_app_stores host req env w :
  app_stores w = [CACHE_NAME] →
  app_stores (snd (handle_fetch host req env w)) = [CACHE_NAME].
Proof.
  intros Happ. unfold app_stores in *.
  rewrite handle_fetch_keeps_stores; [exact Happ|].
  apply elem_of_dom, elem_of_elements.
  assert (CACHE_NAME ∈ List.filter
            (λ key, JsString.startsWith key "webtools-cache-")
            (elements (dom (caches w)))) as Hin by (rewrite Happ; left).
  by apply elem_of_List_filter in Hin as [Hin _].
Qed.

(** ** The theorems at concrete inputs *)

Lemma activate_leaves_only_current_store_witness :
  let w1 := snd (install Demo.host Demo.online Demo.old_version) in
  let w2 := snd (activate Demo.online w1) in
  app_stores w2 = [CACHE_NAME]
  ∧ (∀ name, JsString.startsWith name "webtools-cache-" = true →
             name ≠ CACHE_NAME → caches w2 !! name = None)
  ∧ (∀ name,
       JsString.startsWith name "webtools-cache-" = false ∨ name = CACHE_NAME →
       caches w2 !! name = caches w1 !! name)
  ∧ head (trace w2) = Some EvClaim
  ∧ claim_calls w2 = S (claim_calls w1).
Proof.
  intros w1 w2.
  apply (activate_leaves_only_current_store
           Demo.host Demo.online Demo.online Demo.old_version w1 w2);
    vm_compute; reflexivity.
Defined.

Lemma non_GET_passes_through_witness :
  on_fetch Demo.host Demo.form_post = None
  ∧ handle_fetch Demo.host Demo.form_post Demo.online Demo.warm
    = (PassThrough, Demo.warm).
Proof.
  apply (non_GET_passes_through Demo.host Demo.form_post Demo.online Demo.warm).
  vm_compute. discriminate.
Defined.

Lemma navigation_offline_never_fails_witness :
  ∃ r w',
    handle_fetch Demo.host Demo.navigation Demo.offline Demo.empty
    = (Responded (Resolved r), w')
    ∧ (∀ c, entry Demo.empty CACHE_NAME (shell_key Demo.host) = Some c → r = c)
    ∧ (entry Demo.empty CACHE_NAME (shell_key Demo.host) = None →
       r = offline_page
       ∧ status r = 200
       ∧ header "Content-Type" r = Some "text/html; charset=utf-8"
       ∧ includes (body r) "离线模式" = true)
    ∧ (∀ n k, entry w' n k = entry Demo.empty n k).
Proof.
  apply (navigation_offline_never_fails
           Demo.host Demo.navigation Demo.offline Demo.empty);
    reflexivity.
Defined.

Lemma navigation_online_returns_fresh_witness :
  ∃ w',
    handle_fetch Demo.host Demo.navigation Demo.online Demo.empty
    = (Responded (Resolved (Demo.answer 200 Demo.navigation)), w')
    ∧ entry w' CACHE_NAME (shell_key Demo.host) =
        (if put_ok Demo.online CACHE_NAME (shell_key Demo.host)
                   (Demo.answer 200 Demo.navigation)
         then Some (Demo.answer 200 Demo.navigation)
         else entry Demo.empty CACHE_NAME (shell_key Demo.host))
    ∧ (∀ n k, (n, k) ≠ (CACHE_NAME, shell_key Demo.host) →
              entry w' n k = entry Demo.empty n k).
Proof.
  apply (navigation_online_returns_fresh
           Demo.host Demo.navigation Demo.online Demo.empty);
    reflexivity.
Defined.

Lemma navigation_caches_any_response_witness :
  let error_page := Demo.answer 404 Demo.navigation in
  ∃ o w',
    handle_fetch Demo.host Demo.navigation Demo.not_found Demo.empty = (o, w')
    ∧ cache_writes w' =
        (CACHE_NAME, shell_key Demo.host, error_page) :: cache_writes Demo.empty
    ∧ (put_ok Demo.not_found CACHE_NAME (shell_key Demo.host) error_page = true →
       entry w' CACHE_NAME (shell_key Demo.host) = Some error_page)
    ∧ (cacheable error_page = false →
       ∀ cacheName w0, entry w0 cacheName (url Demo.navigation) = None →
         cache_writes (snd (cacheFirst Demo.navigation cacheName Demo.not_found w0))
         = cache_writes w0).
Proof.
  intros error_page.
  apply (navigation_caches_any_response
           Demo.host Demo.navigation Demo.not_found Demo.empty);
    reflexivity.
Defined.

Lemma cacheFirst_hit_serves_cache_witness :
  ∃ w',
    cacheFirst Demo.script CACHE_NAME Demo.offline Demo.warm
    = (Resolved (Demo.answer 200 Demo.script), w')
    ∧ network_calls w' = network_calls Demo.warm
    ∧ cache_writes w' = cache_writes Demo.warm
    ∧ caches w' = caches Demo.warm.
Proof.
  apply (cacheFirst_hit_serves_cache Demo.offline Demo.warm Demo.script CACHE_NAME).
  vm_compute. reflexivity.
Defined.

Lemma cacheFirst_miss_caches_guarded_witness :
  ∃ w',
    cacheFirst Demo.font CACHE_NAME Demo.not_found Demo.empty
    = (Resolved (Demo.answer 404 Demo.font), w')
    ∧ network_calls w' = Demo.font :: network_calls Demo.empty
    ∧ cache_writes w' = [] ++ cache_writes Demo.empty
    ∧ entry w' CACHE_NAME (url Demo.font) = None
    ∧ (∀ n k, (n, k) ≠ (CACHE_NAME, url Demo.font) →
              entry w' n k = entry Demo.empty n k).
Proof.
  apply (cacheFirst_miss_caches_guarded
           Demo.not_found Demo.empty Demo.font CACHE_NAME
           (Demo.answer 404 Demo.font));
    reflexivity.
Defined.

Lemma cacheFirst_network_failure_witness :
  ∃ w',
    cacheFirst Demo.script CACHE_NAME Demo.offline Demo.empty
    = (Rejected NetworkError, w')
    ∧ network_calls w' = Demo.script :: network_calls Demo.empty
    ∧ (∀ n k, entry w' n k = entry Demo.empty n k).
Proof.
  apply (cacheFirst_network_failure Demo.offline Demo.empty Demo.script CACHE_NAME).
  reflexivity.
Defined.

Lemma second_request_served_from_cache_when_stored_witness :
  let fresh := Demo.answer 200 Demo.script in
  let h1 := handle_fetch Demo.host Demo.script Demo.online Demo.empty in
  let h2 := handle_fetch Demo.host Demo.script Demo.offline (snd h1) in
  network_calls (snd h2) = network_calls (snd h1)
  ∧ entry (snd h1) CACHE_NAME (url Demo.script) = Some fresh
  ∧ fst h1 = Responded (Resolved fresh)
  ∧ fst h2 = Responded (Resolved fresh).
Proof.
  intros fresh h1 h2.
  apply (second_request_served_from_cache_when_stored
           Demo.host Demo.online Demo.offline Demo.empty Demo.script fresh
           (fst h1) (snd h1) (fst h2) (snd h2));
    try (vm_compute; reflexivity).
  vm_compute. discriminate.
Defined.

(** * Further properties of the worker *)

(** ** The scope resolver (lines 13-14) *)

Lemma substring_tail s p :
  String.substring (String.length s) (String.length p) (s +:+ p) = p.
Proof.
  induction s as [|c s IH]; simpl.
  - induction p as [|d p IHp]; simpl; [reflexivity|].
    f_equal. destruct p; [reflexivity|]. exact IHp.
  - exact IH.
Qed.

Lemma length_append s p :
  String.length (s +:+ p) = (String.length s + String.length p)%nat.
Proof. induction s as [|c s IH]; simpl; [reflexivity | by rewrite IH]. Qed.

Lemma endsWith_append s p : JsString.endsWith (s +:+ p) p = true.
Proof.
  unfold JsString.endsWith. rewrite length_append.
  replace (String.length p <=? String.length s + String.length p)%nat with true
    by (symmetry; apply Nat.leb_le; lia).
  replace (String.length s + String.length p - String.length p)%nat
    with (String.length s) by lia.
  rewrite substring_tail. apply String.eqb_refl.
Qed.

(** X1. Whatever the registration scope's path, [BASE] ends with a slash;
    it is the scope path itself when that already ends with one, and
    computing [BASE] from a scope path that is already a [BASE] changes
    nothing. *)
Theorem BASE_ends_with_separator host :
  JsString.endsWith (BASE host) "/" = true
  ∧ BASE {| SCOPE_PATH := BASE host;
            location_origin := location_origin host;
            new_URL := new_URL host |} = BASE host.
Proof.
  assert (JsString.endsWith (BASE host) "/" = true) as Hends.
  { unfold BASE.
    destruct (JsString.endsWith (SCOPE_PATH host) "/") eqn:Hscope; [exact Hscope|].
    apply endsWith_append. }
  split; [exact Hends|].
  unfold BASE at 1. cbn [SCOPE_PATH]. by rewrite Hends.
Qed.

(** ** The runtime patterns (lines 26-37 and 128) *)

Lemma match_here_optional_tail re c s :
  Re.match_here (re ++ [Re.Opt c]) s = Re.match_here re s.
Proof.
  revert s. induction re as [|[d|d] re IH]; intros s.
  - destruct s; simpl; [reflexivity | apply orb_true_r].
  - destruct s as [|e s]; simpl; [reflexivity | by rewrite IH].
  - destruct s as [|e s]; simpl; by rewrite !IH.
Qed.

Lemma match_here_lits p s : Re.match_here (Re.lits p) s = ci_prefix p s.
Proof.
  revert s. induction p as [|c p IH]; intros s; [reflexivity|].
  destruct s as [|d s]; simpl; [reflexivity | by rewrite IH].
Qed.

Lemma match_here_extend re s t :
  Re.match_here re s = true → Re.match_here re (s +:+ t) = true.
Proof.
  revert s. induction re as [|[c|c] re IH]; intros s Hm; [reflexivity| |].
  - destruct s as [|d s]; simpl in *; [discriminate|].
    apply andb_true_iff in Hm as [Hc Hm]. by rewrite Hc, (IH s Hm).
  - destruct s as [|d s]; simpl in Hm.
    + apply (IH EmptyString) in Hm. simpl in Hm.
      destruct t as [|e t]; simpl; [exact Hm|].
      rewrite Hm. apply orb_true_r.
    + simpl. apply orb_true_iff in Hm as [Hm|Hm].
      * apply andb_true_iff in Hm as [Hc Hm]. by rewrite Hc, (IH s Hm).
      * apply (IH (String d s)) in Hm. simpl in Hm. rewrite Hm. apply orb_true_r.
Qed.

Lemma to_lower_idempotent c : Re.to_lower (Re.to_lower c) = Re.to_lower c.
Proof. destruct c as [[] [] [] [] [] [] [] []]; reflexivity. Qed.

Lemma match_here_lower re s : Re.match_here re (lower s) = Re.match_here re s.
Proof.
  revert s. induction re as [|[c|c] re IH]; intros s; [reflexivity| |].
  - destruct s as [|d s]; simpl; [reflexivity|].
    unfold Re.ci_eqb. by rewrite to_lower_idempotent, IH.
  - destruct s as [|d s]; simpl.
    + apply (IH EmptyString).
    + unfold Re.ci_eqb. rewrite to_lower_idempotent, IH.
      by rewrite <- (IH (String d s)).
Qed.

(** X2. A URL matches [RUNTIME_CDN_PATTERNS] exactly when it starts, up to
    letter case, with one of the six host literals: the optional slash that
    ends every pattern never decides a match, and nothing after the literal
    is looked at. *)
Theorem runtime_patterns_are_host_prefixes u :
  existsb (λ re, Re.test re u) RUNTIME_CDN_PATTERNS
  = existsb (λ h, ci_prefix h u) RUNTIME_CDN_HOSTS.
Proof.
  unfold RUNTIME_CDN_PATTERNS, RUNTIME_CDN_HOSTS, Re.test. cbn [existsb].
  by rewrite !match_here_optional_tail, !match_here_lits.
Qed.

(** X3. The patterns are not anchored at the end: a URL that matches keeps
    matching whatever is appended to it (a longer path, a query, a port or
    further host labels). *)
Theorem runtime_patterns_closed_under_extension u rest :
  existsb (λ re, Re.test re u) RUNTIME_CDN_PATTERNS = true →
  existsb (λ re, Re.test re (u +:+ rest)) RUNTIME_CDN_PATTERNS = true.
Proof.
  rewrite !existsb_exists. intros (re & Hin & Hm).
  exists re. split; [exact Hin|]. by apply match_here_extend.
Qed.

Lemma runtime_patterns_closed_under_extension_witness :
  existsb (λ re, Re.test re ("https://cdn.jsdelivr.net" +:+ ".example.org/x.js"))
          RUNTIME_CDN_PATTERNS = true.
Proof.
  apply (runtime_patterns_closed_under_extension "https://cdn.jsdelivr.net").
  reflexivity.
Defined.

(** X4. Matching ignores the case of ASCII letters: a URL matches exactly
    when its lower-cased form does. *)
Theorem runtime_patterns_ignore_case u :
  existsb (λ re, Re.test re (lower u)) RUNTIME_CDN_PATTERNS
  = existsb (λ re, Re.test re u) RUNTIME_CDN_PATTERNS.
Proof.
  induction RUNTIME_CDN_PATTERNS as [|re res IH]; [reflexivity|].
  simpl. unfold Re.test at 1 3. by rewrite match_here_lower, IH.
Qed.

(** ** What handling a request leaves alone (lines 40-58 and 84-135) *)

Lemma caches_open_other name env w n :
  n ≠ name → caches (snd (caches_open name env w)) !! n = caches w !! n.
Proof.
  intros Hne. unfold caches_open.
  destruct (caches w !! name); simpl; [reflexivity|].
  by rewrite lookup_insert_ne.
Qed.

Lemma store_put_other (c : gmap string (gmap string Response)) cache key r n :
  n ≠ cache → store_put cache key r c !! n = c !! n.
Proof. intros Hne. unfold store_put. by rewrite lookup_insert_ne. Qed.

(** The three shapes the world can have after [cacheFirst]. *)
Lemma cacheFirst_world request cacheName env w :
  let w1 := looked_up env w request cacheName in
  let w2 := log (EvFetch request) w1 in
  snd (cacheFirst request cacheName env w) = w1
  ∧ is_Some (entry w cacheName (url request))
  ∨ entry w cacheName (url request) = None
    ∧ (snd (cacheFirst request cacheName env w) = w2
       ∨ ∃ r, net env request = Some r
              ∧ (snd (cacheFirst request cacheName env w)
                 = log (EvPut cacheName (url request) r) w2
                 ∨ snd (cacheFirst request cacheName env w)
                   = set_caches (store_put cacheName (url request) r (caches w2))
                                (log (EvPut cacheName (url request) r) w2))).
Proof.
  intros w1 w2. subst w1 w2.
  destruct (entry w cacheName (url request)) as [c|] eqn:Hentry.
  - left. rewrite (cacheFirst_hit_eq env w request cacheName c Hentry). eauto.
  - right. split; [reflexivity|].
    rewrite (cacheFirst_miss_eq env w request cacheName Hentry).
    destruct (net env request) as [r|]; cbn zeta; [|by left].
    destruct (cacheable r); [|by left].
    right. exists r. split; [reflexivity|].
    destruct (put_ok env cacheName (url request) r); [by right | by left].
Qed.

Lemma looked_up_other env w request cacheName n :
  n ≠ cacheName → caches (looked_up env w request cacheName) !! n = caches w !! n.
Proof. intros Hne. unfold looked_up. rewrite caches_log. by apply caches_open_other. Qed.

(** [cacheFirst] leaves every other store as it is. *)
Lemma cacheFirst_other_stores request cacheName env w n :
  n ≠ cacheName →
  caches (snd (cacheFirst request cacheName env w)) !! n = caches w !! n.
Proof.
  intros Hne.
  destruct (cacheFirst_world request cacheName env w)
    as [[-> _]|[_ [->|(r & _ & [->| ->])]]];
    observe; rewrite ?store_put_other by exact Hne; by apply looked_up_other.
Qed.

(** [cacheFirst] never changes or removes an entry that is there. *)
Lemma cacheFirst_keeps_entries request cacheName env w n k r :
  entry w n k = Some r →
  entry (snd (cacheFirst request cacheName env w)) n k = Some r.
Proof.
  intros Hentry.
  destruct (cacheFirst_world request cacheName env w)
    as [[-> _]|[Hmiss [->|(r' & _ & [->| ->])]]];
    observe; try exact Hentry.
  rewrite lookup_store_put_ne.
  - rewrite ?caches_log.
    change (entry (looked_up env w request cacheName) n k = Some r).
    by rewrite looked_up_entry.
  - intros [= -> ->]. congruence.
Qed.

Lemma fetched_opened_other req env w n :
  n ≠ CACHE_NAME → caches (fetched_opened req env w) !! n = caches w !! n.
Proof.
  intros Hne. unfold fetched_opened.
  by rewrite (caches_open_other CACHE_NAME env (log (EvFetch req) w) n Hne).
Qed.

(** The three shapes the world can have after the navigation branch. *)
Lemma navigate_world host req env w :
  let w2 := fetched_opened req env w in
  snd (navigate host req env w) = log (EvMatch CACHE_NAME (shell_key host)) w2
  ∧ net env req = None
  ∨ ∃ fresh, net env req = Some fresh
      ∧ (snd (navigate host req env w) = log (EvPut CACHE_NAME (shell_key host) fresh) w2
         ∨ snd (navigate host req env w)
           = set_caches (store_put CACHE_NAME (shell_key host) fresh (caches w2))
                        (log (EvPut CACHE_NAME (shell_key host) fresh) w2)).
Proof.
  intros w2. subst w2.
  destruct (net env req) as [fresh|] eqn:Hnet.
  - right. exists fresh. split; [reflexivity|].
    rewrite (navigate_online_eq host req env w fresh Hnet). cbn zeta.
    destruct (put_ok env CACHE_NAME (shell_key host) fresh); [by right | by left].
  - left. by rewrite (navigate_offline_eq host req env w Hnet).
Qed.

Lemma navigate_other_stores host req env w n :
  n ≠ CACHE_NAME →
  caches (snd (navigate host req env w)) !! n = caches w !! n.
Proof.
  intros Hne.
  destruct (navigate_world host req env w) as [[-> _]|(fresh & _ & [->| ->])];
    observe; rewrite ?store_put_other by exact Hne; by apply fetched_opened_other.
Qed.

(** The navigation branch changes no entry but the shell, and never removes
    the shell. *)
Lemma navigate_keeps_entries host req env w n k :
  (n, k) ≠ (CACHE_NAME, shell_key host) →
  entry (snd (navigate host req env w)) n k = entry w n k.
Proof.
  intros Hne.
  destruct (navigate_world host req env w) as [[-> _]|(fresh & _ & [->| ->])];
    observe; try reflexivity.
  rewrite lookup_store_put_ne by exact Hne. apply fetched_opened_entry.
Qed.

Lemma navigate_keeps_shell host req env w :
  is_Some (entry w CACHE_NAME (shell_key host)) →
  is_Some (entry (snd (navigate host req env w)) CACHE_NAME (shell_key host)).
Proof.
  intros Hshell.
  destruct (navigate_world host req env w) as [[-> _]|(fresh & _ & [->| ->])];
    observe; try exact Hshell.
  rewrite lookup_store_put_eq. eauto.
Qed.

(** The branch the listener takes, as a case distinction on the request. *)
Lemma handle_fetch_cases host req env w :
  handle_fetch host req env w = (PassThrough, w)
  ∨ (method req = "GET" ∧ mode req = "navigate"
     ∧ handle_fetch host req env w
       = (Responded (fst (navigate host req env w)), snd (navigate host req env w)))
  ∨ (method req = "GET" ∧ mode req ≠ "navigate"
     ∧ handle_fetch host req env w
       = (Responded (fst (cacheFirst req CACHE_NAME env w)),
          snd (cacheFirst req CACHE_NAME env w))).
Proof.
  unfold handle_fetch, on_fetch.
  destruct (String.eqb (method req) "GET") eqn:Hm; cbn [negb]; [|by left].
  apply String.eqb_eq in Hm.
  destruct (String.eqb (mode req) "navigate") eqn:Hn.
  { apply String.eqb_eq in Hn. right; left. repeat split; [exact Hm | exact Hn |].
    destruct (navigate host req env w) as [r0 w0]. reflexivity. }
  apply String.eqb_neq in Hn.
  destruct (String.eqb (origin (new_URL host (url req))) (location_origin host)
            && JsString.startsWith (pathname (new_URL host (url req))) (BASE host)).
  { right; right. repeat split; [exact Hm | exact Hn |].
    destruct (cacheFirst req CACHE_NAME env w) as [r0 w0]. reflexivity. }
  destruct (existsb (λ re, Re.test re (url req)) RUNTIME_CDN_PATTERNS).
  { right; right. repeat split; [exact Hm | exact Hn |].
    destruct (cacheFirst req CACHE_NAME env w) as [r0 w0]. reflexivity. }
  by left.
Qed.


(** X6. Handling a request never touches a store other than the current
    one: every other store is there, with the same contents, or absent,
    exactly as before. *)
Theorem fetch_touches_only_current_store host req env w n :
  n ≠ CACHE_NAME →
  caches (snd (handle_fetch host req env w)) !! n = caches w !! n.
Proof.
  intros Hne.
  destruct (handle_fetch_cases host req env w) as [->|[(_ & _ & ->)|(_ & _ & ->)]];
    cbn [snd]; [reflexivity | by apply navigate_other_stores
                            | by apply cacheFirst_other_stores].
Qed.

Lemma fetch_touches_only_current_store_witness :
  caches (snd (handle_fetch Demo.host Demo.navigation Demo.online Demo.old_version))
    !! "webtools-cache-v1.0.1"
  = caches Demo.old_version !! "webtools-cache-v1.0.1".
Proof.
  apply (fetch_touches_only_current_store
           Demo.host Demo.navigation Demo.online Demo.old_version).
  vm_compute. discriminate.
Defined.

(** X7. Handling a request never removes a cached entry and never replaces
    one by a different response, with one exception: a navigation may
    overwrite the shell entry.  In particular the cache-first branches never
    refresh what is already stored. *)
Theorem fetch_never_evicts host req env w n k r :
  entry w n k = Some r →
  mode req ≠ "navigate" ∨ (n, k) ≠ (CACHE_NAME, shell_key host) →
  entry (snd (handle_fetch host req env w)) n k = Some r.
Proof.
  intros Hentry Hcase.
  destruct (handle_fetch_cases host req env w) as [->|[(_ & Hn & ->)|(_ & _ & ->)]];
    cbn [snd].
  - exact Hentry.
  - destruct Hcase as [Hcase|Hcase]; [contradiction|].
    by rewrite navigate_keeps_entries.
  - by apply cacheFirst_keeps_entries.
Qed.

Lemma fetch_never_evicts_witness :
  entry (snd (handle_fetch Demo.host Demo.navigation Demo.online Demo.warm))
        CACHE_NAME (url Demo.script)
  = Some (Demo.answer 200 Demo.script).
Proof.
  apply (fetch_never_evicts Demo.host Demo.navigation Demo.online Demo.warm).
  - vm_compute. reflexivity.
  - right. vm_compute. discriminate.
Defined.

(** X8. One handled request makes at most one network fetch, of the request
    itself, and at most one cache write; what is written is the response the
    network gave to that request, into the current store, under the
    request's URL or the shell key. *)
Theorem fetch_one_call_one_write host req env w :
  (network_calls (snd (handle_fetch host req env w)) = network_calls w
   ∨ network_calls (snd (handle_fetch host req env w)) = req :: network_calls w)
  ∧ (cache_writes (snd (handle_fetch host req env w)) = cache_writes w
     ∨ ∃ k r, net env req = Some r
              ∧ (k = url req ∨ k = shell_key host)
              ∧ cache_writes (snd (handle_fetch host req env w))
                = (CACHE_NAME, k, r) :: cache_writes w).
Proof.
  destruct (handle_fetch_cases host req env w) as [->|[(_ & _ & ->)|(_ & _ & ->)]];
    cbn [snd].
  - by split; left.
  - destruct (navigate_world host req env w) as [[-> _]|(fresh & Hnet & [->| ->])];
      observe; (split; [by right|]); [by left | |];
      right; exists (shell_key host), fresh; by repeat split; try right.
  - destruct (cacheFirst_world req CACHE_NAME env w)
      as [[-> _]|[_ [->|(r & Hnet & [->| ->])]]]; observe.
    + by split; left.
    + split; [by right | by left].
    + split; [by right|]. right. exists (url req), r. by repeat split; try left.
    + split; [by right|]. right. exists (url req), r. by repeat split; try left.
Qed.

(** ** Activation in general (lines 70-81) *)

Lemma deletions_log e w :
  deletions (log e w) =
  match e with EvDelete n => n :: deletions w | _ => deletions w end.
Proof. destruct e; reflexivity. Qed.

Lemma claim_calls_log e w :
  claim_calls (log e w) =
  match e with EvClaim => S (claim_calls w) | _ => claim_calls w end.
Proof. destruct e; reflexivity. Qed.

Section DeletionsInGeneral.

Context (env : Env).

Lemma delete_all_cons n0 names w :
  delete_all env w (n0 :: names) =
  delete_all env (if delete_ok env n0
                  then set_caches (delete n0 (caches w)) (log (EvDelete n0) w)
                  else log (EvDelete n0) w) names.
Proof. reflexivity. Qed.

(** A store is gone after the deletions exactly when it was named and its
    deletion went through. *)
Lemma delete_all_lookup_any names w n :
  caches (delete_all env w names) !! n =
    if bool_decide (n ∈ names) && delete_ok env n then None else caches w !! n.
Proof.
  revert w. induction names as [|n0 names IH]; intros w; [reflexivity|].
  rewrite delete_all_cons, IH.
  destruct (decide (n = n0)) as [->|Hne].
  - rewrite (bool_decide_eq_true_2 (n0 ∈ n0 :: names)) by left.
    destruct (delete_ok env n0); simpl.
    + rewrite lookup_delete_eq. by destruct (bool_decide _).
    + by rewrite !andb_false_r.
  - replace (bool_decide (n ∈ n0 :: names)) with (bool_decide (n ∈ names)).
    2:{ apply bool_decide_ext. rewrite elem_of_cons.
        split; [by right | by intros [?|?]]. }
    destruct (delete_ok env n0); simpl; [|reflexivity].
    by rewrite lookup_delete_ne.
Qed.

Lemma delete_all_deletions names w :
  deletions (delete_all env w names) = rev names ++ deletions w.
Proof.
  revert w. induction names as [|n0 names IH]; intros w; [reflexivity|].
  rewrite delete_all_cons, IH.
  simpl. rewrite <- app_assoc. simpl. by destruct (delete_ok env n0).
Qed.

End DeletionsInGeneral.

(** The world [activate] leaves, whatever its outcome. *)
Lemma activate_world env w :
  snd (activate env w) =
    let w2 := delete_all env (log EvKeys w) (stale_keys w) in
    if forallb (delete_ok env) (stale_keys w) then log EvClaim w2 else w2.
Proof. by destruct (activate_eq env w) as (r & -> & _). Qed.

Lemma activate_outcome env w :
  resolved (fst (activate env w)) = forallb (delete_ok env) (stale_keys w).
Proof. by destruct (activate_eq env w) as (r & -> & Hr). Qed.

Lemma activate_lookup env w n :
  caches (snd (activate env w)) !! n =
    if stale n && delete_ok env n then None else caches w !! n.
Proof.
  rewrite activate_world. cbn zeta.
  assert (caches (delete_all env (log EvKeys w) (stale_keys w)) !! n =
          if stale n && delete_ok env n then None else caches w !! n) as Hlookup.
  { rewrite delete_all_lookup_any, caches_log.
    destruct (caches w !! n) as [store|] eqn:Hn.
    - destruct (stale n) eqn:Hstale.
      + rewrite bool_decide_eq_true_2; [done|].
        apply elem_of_stale_keys. rewrite Hn. eauto.
      + rewrite bool_decide_eq_false_2; [done|].
        intros [_ ?]%elem_of_stale_keys. congruence.
    - by destruct (_ && _), (_ && _). }
  by destruct (forallb _ _).
Qed.

(** X9. Whether or not [activate] completes, afterwards a store is gone
    exactly when it was stale and its deletion succeeded.  Every other store
    (the current one, the stores of other applications, a stale store whose
    deletion failed) is exactly as before, and no store is created. *)
Theorem activate_removes_only_deleted_stale_stores env w n :
  caches (snd (activate env w)) !! n =
    if JsString.startsWith n "webtools-cache-" && negb (String.eqb n CACHE_NAME)
       && delete_ok env n
    then None
    else caches w !! n.
Proof. apply activate_lookup. Qed.

(** X10. [activate] completes exactly when every stale store could be
    deleted, and takes control of the clients only then; but it attempts the
    deletion of every stale store in either case, a failed one not stopping
    the others. *)
Theorem activate_completes_iff_all_deleted env w :
  resolved (fst (activate env w)) = forallb (delete_ok env) (stale_keys w)
  ∧ claim_calls (snd (activate env w)) =
      (if forallb (delete_ok env) (stale_keys w)
       then S (claim_calls w) else claim_calls w)
  ∧ deletions (snd (activate env w)) = rev (stale_keys w) ++ deletions w.
Proof.
  split; [apply activate_outcome|].
  rewrite activate_world. cbn zeta.
  destruct (forallb (delete_ok env) (stale_keys w));
    rewrite ?claim_calls_log, ?deletions_log, delete_all_claim, delete_all_deletions;
    by rewrite claim_calls_log, deletions_log.
Qed.

Lemma nil_of_no_member {A} (l : list A) : (∀ x, x ∉ l) → l = [].
Proof. destruct l as [|x l]; [reflexivity|]. intros H. destruct (H x). left. Qed.

(** X11. After a completed [activate] on any storage, the stores following
    the application's naming pattern are just the current store if it
    existed before, and none otherwise: [activate] does not create it. *)
Theorem activate_app_stores_in_general env w w' :
  activate env w = (Resolved (), w') →
  app_stores w' =
    match caches w !! CACHE_NAME with
    | Some _ => [CACHE_NAME]
    | None => []
    end.
Proof.
  intros Hact.
  destruct (caches w !! CACHE_NAME) as [store|] eqn:Hcur.
  - apply (activate_app_stores env w w'); [eauto | exact Hact].
  - destruct (activate_resolved env w w' Hact) as (Hlookup & _).
    apply nil_of_no_member. intros n.
    unfold app_stores.
    rewrite elem_of_List_filter, elem_of_elements, elem_of_dom, Hlookup.
    unfold stale. intros [Hsome Hprefix]. rewrite Hprefix in Hsome.
    destruct (String.eqb n CACHE_NAME) eqn:Heq; simpl in Hsome.
    + apply String.eqb_eq in Heq. subst n. rewrite Hcur in Hsome. by destruct Hsome.
    + by destruct Hsome.
Qed.

Lemma activate_app_stores_in_general_witness :
  app_stores (snd (activate Demo.online Demo.old_version)) = [].
Proof.
  apply (activate_app_stores_in_general Demo.online Demo.old_version).
  vm_compute. reflexivity.
Defined.

(** X12. [activate] is idempotent: once it has completed, running it again,
    under any conditions, attempts no deletion, completes, and leaves cache
    storage as it is. *)
Theorem activate_twice_deletes_nothing env env' w w' :
  activate env w = (Resolved (), w') →
  activate env' w' = (Resolved (), log EvClaim (log EvKeys w')).
Proof.
  intros Hact.
  destruct (activate_resolved env w w' Hact) as (Hlookup & _).
  assert (stale_keys w' = []) as Hnone.
  { apply nil_of_no_member. intros n [Hsome Hstale]%elem_of_stale_keys.
    rewrite Hlookup, Hstale in Hsome. by destruct Hsome. }
  destruct (activate_eq env' w') as (r & -> & Hr).
  rewrite Hnone in *. simpl in Hr.
  destruct r as [[]|e]; [reflexivity | discriminate].
Qed.

Lemma activate_twice_deletes_nothing_witness :
  let w' := snd (activate Demo.online Demo.old_version) in
  activate Demo.offline w' = (Resolved (), log EvClaim (log EvKeys w')).
Proof.
  intros w'.
  apply (activate_twice_deletes_nothing Demo.online Demo.offline Demo.old_version).
  vm_compute. reflexivity.
Defined.

(** ** Install and what follows it (lines 17-23 and 61-67) *)

Lemma put_entries_other cache entries w n :
  n ≠ cache → caches (put_entries cache w entries) !! n = caches w !! n.
Proof.
  intros Hne. revert w.
  induction entries as [|e entries IH]; intros w; [reflexivity|].
  simpl. rewrite IH. simpl. by apply store_put_other.
Qed.

Lemma put_entries_keeps cache entries w k :
  is_Some (entry w cache k) → is_Some (entry (put_entries cache w entries) cache k).
Proof.
  revert w. induction entries as [|[k0 r0] entries IH]; intros w Hk; [exact Hk|].
  simpl. apply IH. rewrite entry_set_caches.
  destruct (decide (k0 = k)) as [->|Hne].
  - rewrite lookup_store_put_eq. eauto.
  - rewrite lookup_store_put_ne by congruence. exact Hk.
Qed.

Lemma install_world host env w :
  snd (install host env w) = log_fetches host (opened env w) (PRECACHE_URLS host)
  ∨ ∃ entries,
      snd (install host env w)
      = log EvSkipWaiting
          (put_entries CACHE_NAME
             (log_fetches host (opened env w) (PRECACHE_URLS host)) entries).
Proof.
  rewrite install_eq. cbn zeta.
  destruct (fetch_all host env (PRECACHE_URLS host)) as [entries|]; [|by left].
  destruct (forallb _ _); [right; by exists entries | by left].
Qed.

(** A successful [install] leaves under every manifest URL the response the
    network gave for it. *)
Lemma install_resolved_entry host env w w' u :
  install host env w = (Resolved (), w') →
  u ∈ PRECACHE_URLS host →
  ∃ r, net env (Request_of host u) = Some r
       ∧ entry w' CACHE_NAME (resolve host u) = Some r.
Proof.
  rewrite install_eq. cbn zeta. intros Hinstall Hu.
  destruct (fetch_all host env (PRECACHE_URLS host)) as [entries|] eqn:Hall;
    [|discriminate].
  destruct (forallb _ _); [|discriminate].
  injection Hinstall as <-.
  destruct (fetch_all_complete host env _ _ u Hall Hu) as (r & Hr & Hin).
  exists r. split; [exact Hr|]. rewrite entry_log.
  apply put_entries_entry; [|by left].
  intros r' Hr'. apply (fetch_all_sound host env _ _ _ _ Hall) in Hr'.
  unfold Request_of in Hr. congruence.
Qed.

Lemma shell_is_precached host : BASE host +:+ "index.html" ∈ PRECACHE_URLS host.
Proof. unfold PRECACHE_URLS, PRECACHE_FILES. simpl. right. left. Qed.

(** X13. [install] touches no store but the current one, which exists
    afterwards whether or not the install succeeded (it is opened before the
    manifest is fetched); and it removes nothing from the current store. *)
Theorem install_touches_only_current_store host env w :
  (∀ n, n ≠ CACHE_NAME → caches (snd (install host env w)) !! n = caches w !! n)
  ∧ is_Some (caches (snd (install host env w)) !! CACHE_NAME)
  ∧ (∀ k, is_Some (entry w CACHE_NAME k) →
          is_Some (entry (snd (install host env w)) CACHE_NAME k)).
Proof.
  split; [|split].
  - intros n Hne.
    destruct (install_world host env w) as [->|(entries & ->)];
      rewrite ?caches_log, ?put_entries_other by exact Hne;
      rewrite log_fetches_caches; by apply caches_open_other.
  - apply install_opens_current_store.
  - intros k Hk. rewrite <- (opened_entry env w) in Hk.
    rewrite <- (log_fetches_entry host (PRECACHE_URLS host)) in Hk.
    destruct (install_world host env w) as [->|(entries & ->)]; [exact Hk|].
    rewrite entry_log. by apply put_entries_keeps.
Qed.

(** X14. After a successful install, a navigation made while the network is
    down is answered with the [index.html] that the install fetched. *)
Theorem install_then_offline_navigation host env env' w w' req :
  install host env w = (Resolved (), w') →
  method req = "GET" →
  mode req = "navigate" →
  net env' req = None →
  ∃ shell,
    net env (Request_of host (BASE host +:+ "index.html")) = Some shell
    ∧ fst (handle_fetch host req env' w') = Responded (Resolved shell).
Proof.
  intros Hinstall Hm Hn Hnet.
  destruct (install_resolved_entry host env w w' _ Hinstall (shell_is_precached host))
    as (shell & Hshell & Hentry).
  exists shell. split; [exact Hshell|].
  unfold handle_fetch. rewrite (on_fetch_navigate host req Hm Hn).
  rewrite (navigate_offline_eq host req env' w' Hnet).
  fold (shell_key host) in Hentry. by rewrite Hentry.
Qed.

Lemma install_then_offline_navigation_witness :
  ∃ shell,
    net Demo.online (Request_of Demo.host (BASE Demo.host +:+ "index.html")) = Some shell
    ∧ fst (handle_fetch Demo.host Demo.navigation Demo.offline
             (snd (install Demo.host Demo.online Demo.empty)))
      = Responded (Resolved shell).
Proof.
  apply (install_then_offline_navigation
           Demo.host Demo.online Demo.offline Demo.empty);
    vm_compute; reflexivity.
Defined.

(** ** The installed worker over time *)

Lemma life_step_keeps_entry host w e n k r :
  entry w n k = Some r →
  stale n = false →
  (n, k) ≠ (CACHE_NAME, shell_key host) →
  entry (life_step host w e) n k = Some r.
Proof.
  intros Hentry Hstale Hne. destruct e as [env|req env]; cbn [life_step].
  - unfold entry. rewrite activate_lookup, Hstale. exact Hentry.
  - destruct (handle_fetch_cases host req env w)
      as [->|[(_ & _ & ->)|(_ & _ & ->)]]; cbn [snd].
    + exact Hentry.
    + by rewrite navigate_keeps_entries.
    + by apply cacheFirst_keeps_entries.
Qed.

Lemma life_step_keeps_shell host w e :
  is_Some (entry w CACHE_NAME (shell_key host)) →
  is_Some (entry (life_step host w e) CACHE_NAME (shell_key host)).
Proof.
  intros Hshell. destruct e as [env|req env]; cbn [life_step].
  - unfold entry. rewrite activate_lookup, CACHE_NAME_not_stale. exact Hshell.
  - destruct (handle_fetch_cases host req env w)
      as [->|[(_ & _ & ->)|(_ & _ & ->)]]; cbn [snd].
    + exact Hshell.
    + by apply navigate_keeps_shell.
    + destruct Hshell as [c Hc]. exists c. by apply cacheFirst_keeps_entries.
Qed.

Lemma live_keeps_entry host events w n k r :
  entry w n k = Some r →
  stale n = false →
  (n, k) ≠ (CACHE_NAME, shell_key host) →
  entry (live host events w) n k = Some r.
Proof.
  intros Hentry Hstale Hne. revert w Hentry.
  induction events as [|e events IH]; intros w Hentry; [exact Hentry|].
  apply IH. by apply life_step_keeps_entry.
Qed.

Lemma live_keeps_shell host events w :
  is_Some (entry w CACHE_NAME (shell_key host)) →
  is_Some (entry (live host events w) CACHE_NAME (shell_key host)).
Proof.
  revert w. induction events as [|e events IH]; intros w Hshell; [exact Hshell|].
  apply IH. by apply life_step_keeps_shell.
Qed.

(** X15. Cached responses are never refreshed: an entry other than the
    shell, in a store that [activate] does not delete, is still there with
    the same response after any sequence of activations and handled
    requests, whatever the network does meanwhile. *)
Theorem cached_entry_survives host events w n k r :
  entry w n k = Some r →
  JsString.startsWith n "webtools-cache-" && negb (String.eqb n CACHE_NAME) = false →
  (n, k) ≠ (CACHE_NAME, shell_key host) →
  entry (live host events w) n k = Some r.
Proof. apply live_keeps_entry. Qed.

Lemma cached_entry_survives_witness :
  entry (live Demo.host
           [ OnFetch Demo.navigation Demo.online;
             OnActivate Demo.online;
             OnFetch Demo.script Demo.not_found;
             OnFetch Demo.font Demo.online ]
           Demo.warm)
        CACHE_NAME (url Demo.script)
  = Some (Demo.answer 200 Demo.script).
Proof.
  apply (cached_entry_survives Demo.host _ Demo.warm);
    [vm_compute; reflexivity | reflexivity | vm_compute; discriminate].
Defined.

(** Same-origin requests under [BASE] go to [cacheFirst] on the current
    store (lines 121-125). *)
Lemma on_fetch_same_origin host req :
  method req = "GET" → mode req ≠ "navigate" →
  same_origin_under_BASE host req = true →
  on_fetch host req = Some (cacheFirst req CACHE_NAME).
Proof.
  intros Hm Hn Hsame. unfold on_fetch. unfold same_origin_under_BASE in Hsame.
  apply String.eqb_neq in Hn. rewrite Hm, Hn, Hsame. reflexivity.
Qed.

(** X16. After a successful install, and after any activations and handled
    requests since, a request for a precached file other than [index.html]
    that is same-origin under [BASE] is answered with the response the
    install fetched, without a network fetch. *)
Theorem precached_file_served_from_cache host env env' events w w1 req u :
  install host env w = (Resolved (), w1) →
  u ∈ PRECACHE_URLS host →
  resolve host u ≠ shell_key host →
  method req = "GET" →
  mode req ≠ "navigate" →
  url req = resolve host u →
  same_origin_under_BASE host req = true →
  ∃ r w',
    net env (Request_of host u) = Some r
    ∧ handle_fetch host req env' (live host events w1) = (Responded (Resolved r), w')
    ∧ network_calls w' = network_calls (live host events w1).
Proof.
  intros Hinstall Hu Hshell Hm Hn Hurl Hsame.
  destruct (install_resolved_entry host env w w1 u Hinstall Hu) as (r & Hr & Hentry).
  assert (entry (live host events w1) CACHE_NAME (url req) = Some r) as Hlive.
  { rewrite Hurl. apply live_keeps_entry;
      [exact Hentry | apply CACHE_NAME_not_stale | congruence]. }
  exists r. eexists. split; [exact Hr|].
  unfold handle_fetch. rewrite (on_fetch_same_origin host req Hm Hn Hsame).
  rewrite (cacheFirst_hit_eq env' _ req CACHE_NAME r Hlive).
  split; [reflexivity|]. by observe.
Qed.

(** X17. After a successful install, and after any activations and handled
    requests since, a navigation made while the network is down is answered
    from the cache: the shell entry is still there and is what is returned,
    so the inline offline page is not used. *)
Theorem installed_worker_navigates_offline host env env' events w w1 req :
  install host env w = (Resolved (), w1) →
  method req = "GET" →
  mode req = "navigate" →
  net env' req = None →
  ∃ shell,
    entry (live host events w1) CACHE_NAME (shell_key host) = Some shell
    ∧ fst (handle_fetch host req env' (live host events w1))
      = Responded (Resolved shell).
Proof.
  intros Hinstall Hm Hn Hnet.
  destruct (install_resolved_entry host env w w1 _ Hinstall (shell_is_precached host))
    as (r & _ & Hentry).
  fold (shell_key host) in Hentry.
  destruct (live_keeps_shell host events w1 (ex_intro _ r Hentry)) as [shell Hshell].
  exists shell. split; [exact Hshell|].
  unfold handle_fetch. rewrite (on_fetch_navigate host req Hm Hn).
  rewrite (navigate_offline_eq host req env' _ Hnet). by rewrite Hshell.
Qed.

Lemma precached_file_served_from_cache_witness :
  let w1 := snd (install Demo.host Demo.online Demo.empty) in
  let events := [ OnActivate Demo.online; OnFetch Demo.navigation Demo.not_found ] in
  ∃ r w',
    net Demo.online (Request_of Demo.host "/WebTools/manifest.webmanifest") = Some r
    ∧ handle_fetch Demo.host Demo.manifest Demo.offline (live Demo.host events w1)
      = (Responded (Resolved r), w')
    ∧ network_calls w' = network_calls (live Demo.host events w1).
Proof.
  intros w1 events.
  apply (precached_file_served_from_cache
           Demo.host Demo.online Demo.offline events Demo.empty w1 Demo.manifest
           "/WebTools/manifest.webmanifest").
  - vm_compute. reflexivity.
  - apply list_elem_of_In. vm_compute. tauto.
  - vm_compute. discriminate.
  - reflexivity.
  - vm_compute. discriminate.
  - reflexivity.
  - reflexivity.
Defined.

Lemma installed_worker_navigates_offline_witness :
  let w1 := snd (install Demo.host Demo.online Demo.empty) in
  let events := [ OnActivate Demo.online; OnFetch Demo.navigation Demo.not_found;
                  OnFetch Demo.script Demo.online ] in
  ∃ shell,
    entry (live Demo.host events w1) CACHE_NAME (shell_key Demo.host) = Some shell
    ∧ fst (handle_fetch Demo.host Demo.navigation Demo.offline
             (live Demo.host events w1))
      = Responded (Resolved shell).
Proof.
  intros w1 events.
  apply (installed_worker_navigates_offline
           Demo.host Demo.online Demo.offline events Demo.empty w1 Demo.navigation);
    vm_compute; reflexivity.
Defined.
